(** * Struct.js: typed access to an ArrayBuffer through a compiled layout

    A shallow embedding of [src/Struct.js] and the properties of its layout
    compiler, typed accessors and renderers.

    Conventions of the embedding.
    - A JavaScript String is the list of its UTF-16 code units.
    - A Number is a double.  The Numbers of the program are integers or
      infinite: a finite one is written as its value in [Z], and an infinite
      one as 2^1024 with its sign, the first magnitude past every finite
      double.  The layout compiler parses, multiplies and adds in double
      arithmetic ([round_double]): its results are exact up to 2^53 and
      rounded beyond.  The accessors add an index to an offset only to pass
      the sum to the DataView, which checks it against a buffer of at most
      2^53 - 1 bytes: such a sum is in range only where it is exact, and is
      written without rounding.
    - An ArrayBuffer is the list of its bytes; the DataView of the program
      spans the whole buffer, so both are one store.
    - A call that throws returns [Throw]; a method that mutates the buffer
      returns the object after the call next to its outcome, so that what a
      failing call leaves behind can be stated. *)

From Stdlib Require Import ZArith NArith List Lia Ascii.
From Stdlib Require String.
Import String.StringSyntax.
Delimit Scope string_scope with string.
From Stdlib.Strings Require Import Byte.
From stdpp Require Import base option list gmap.

Local Open Scope Z_scope.

(** ** The JavaScript runtime the program relies on *)

Module JS.

(** Strings: sequences of UTF-16 code units. *)
Abbreviation jsstring := (list N) (only parsing).

(** [str] reads a literal of the development as a JavaScript String. *)
Definition str (s : String.string) : jsstring :=
  map N_of_ascii (String.list_ascii_of_string s).
Arguments str s%_string.

(** What a call can throw. *)
Inductive exn : Type :=
| Error (message : jsstring)
| TypeError
| RangeError.

(** How a call ends: with a value, with an exception, or not at all. *)
Inductive outcome (A : Type) : Type :=
| Ok (a : A)
| Throw (e : exn)
| Hang.
Arguments Ok {A} a.
Arguments Throw {A} e.
Arguments Hang {A}.

(** Sequencing: an exception leaves the rest of the body unexecuted. *)
#[export] Instance outcome_bind : MBind outcome := fun A B k m =>
  match m with
  | Ok a => k a
  | Throw e => Throw e
  | Hang => Hang
  end.

#[export] Instance outcome_fmap : FMap outcome := fun A B f m =>
  match m with
  | Ok a => Ok (f a)
  | Throw e => Throw e
  | Hang => Hang
  end.

(** The values passed to [set] and returned by [get]. *)
Inductive value : Type :=
| VNumber (n : Z)
| VString (s : jsstring).

(** ToBoolean on an optional boolean argument: [undefined] is false. *)
Definition ToBoolean (flag : option bool) : bool := default false flag.

(** *** Character classes of regular expressions *)

Definition is_digit (c : N) : bool := ((48 <=? c) && (c <=? 57))%N.

Definition is_word (c : N) : bool :=
  (is_digit c || ((65 <=? c) && (c <=? 90)) || (c =? 95)
   || ((97 <=? c) && (c <=? 122)))%N.

(** The longest prefix of [s] in the class [p], and what follows it. *)
Fixpoint span (p : N -> bool) (s : jsstring) : jsstring * jsstring :=
  match s with
  | c :: s' =>
      if p c then let '(l, r) := span p s' in (c :: l, r) else ([], s)
  | [] => ([], [])
  end.

Fixpoint strip_prefix (p s : jsstring) : option jsstring :=
  match p, s with
  | [], _ => Some s
  | a :: p', b :: s' => if (a =? b)%N then strip_prefix p' s' else None
  | _ :: _, [] => None
  end.

(** *** Numbers *)

(** The value of a run of decimal digits. *)
Definition decimal (ds : jsstring) : Z :=
  fold_left (fun acc c => 10 * acc + (Z.of_N c - 48)) ds 0.

(** WhiteSpace and LineTerminator code units. *)
Definition is_white (c : N) : bool :=
  bool_decide (c ∈ [9; 10; 11; 12; 13; 32; 160; 5760; 8232; 8233; 8239;
                    8287; 12288; 65279]%N)
  || ((8192 <=? c) && (c <=? 8202))%N.

(** Infinity, as the embedding writes it. *)
Definition Infinity : Z := 2 ^ 1024.

(** The double nearest to a non-negative integer [z], ties to the even
    significand.  Below 2^53 every integer is a double; from there on the
    doubles are the multiples of [ulp], the power of two that leaves 53
    significant bits, and what rounds to 2^1024 is infinite. *)
Definition nearest_double (z : Z) : Z :=
  if z <? 2 ^ 53 then z
  else
    let ulp := 2 ^ (Z.log2 z - 52) in
    let q := z / ulp in
    let r := z mod ulp in
    let q' := if 2 * r <? ulp then q
              else if ulp <? 2 * r then q + 1
              else if Z.even q then q else q + 1 in
    Z.min (q' * ulp) Infinity.

(** The Number for an integer [z]. *)
Definition round_double (z : Z) : Z := Z.sgn z * nearest_double (Z.abs z).

(** [a + b] and [a * b] on the Numbers of the compiler, which are
    non-negative and, where multiplied, not 0: the exact result, rounded. *)
Definition Number_add (a b : Z) : Z := round_double (a + b).
Definition Number_mul (a b : Z) : Z := round_double (a * b).

(** [parseInt(s, 10)]: the Number for the integer the digits denote;
    [None] is NaN.  (Past the 20th significant digit ECMAScript lets an
    engine replace digits by 0 before rounding; the properties below rely
    on no digit that far.) *)
Definition parseInt (s : jsstring) : option Z :=
  let s := snd (span is_white s) in
  let '(sign, s) :=
    match strip_prefix (str "-") s, strip_prefix (str "+") s with
    | Some r, _ => (-1, r)
    | None, Some r => (1, r)
    | None, None => (1, s)
    end in
  match fst (span is_digit s) with
  | [] => None
  | ds => Some (round_double (sign * decimal ds))
  end.

(** [n || d] on a Number: NaN and 0 are falsy. *)
Definition or_else (n : option Z) (d : Z) : Z :=
  match n with
  | Some k => if k =? 0 then d else k
  | None => d
  end.

(** The digit of [Number.prototype.toString]: 0-9, then a-z. *)
Definition digit_char (d : Z) : N :=
  Z.to_N (if d <? 10 then 48 + d else 87 + d).

Fixpoint digits_loop (fuel : nat) (radix v : Z) (acc : jsstring) : jsstring :=
  match fuel with
  | O => acc
  | S fuel' =>
      let acc' := digit_char (v mod radix) :: acc in
      if v / radix =? 0 then acc' else digits_loop fuel' radix (v / radix) acc'
  end.

(** [v.toString(radix)] for a non-negative integer [v]; a number has at
    most [log2 v + 1] digits in any radix. *)
Definition Number_toString (v radix : Z) : jsstring :=
  digits_loop (S (Z.to_nat (Z.log2 v))) radix v [].

(** *** ArrayBuffer and DataView *)

Abbreviation ArrayBuffer := (list byte) (only parsing).

Definition byteLength (b : ArrayBuffer) : Z := Z.of_nat (length b).

Definition MAX_BYTE_LENGTH : Z := 2 ^ 53 - 1.

(** [new ArrayBuffer(n)]: zero-filled; a length that is no index throws.
    (An engine may also refuse a smaller length it cannot allocate.) *)
Definition ArrayBuffer_new (n : Z) : outcome ArrayBuffer :=
  if (n <? 0) || (MAX_BYTE_LENGTH <? n) then Throw RangeError
  else Ok (replicate (Z.to_nat n) x00).

Definition byte_of_Z (z : Z) : byte :=
  default x00 (Byte.of_N (Z.to_N (z mod 256))).

Definition Z_of_byte (b : byte) : Z := Z.of_N (Byte.to_N b).

(** Little-endian bytes of [v] modulo 2^(8 size), and their value. *)
Fixpoint le_encode (size : nat) (v : Z) : list byte :=
  match size with
  | O => []
  | S size' => byte_of_Z v :: le_encode size' (v / 256)
  end.

Fixpoint le_decode (bs : list byte) : Z :=
  match bs with
  | [] => 0
  | b :: bs' => Z_of_byte b + 256 * le_decode bs'
  end.

Definition NumericToRawBytes (size : nat) (v : Z) (isLittleEndian : bool)
  : list byte :=
  if isLittleEndian then le_encode size v else rev (le_encode size v).

Definition RawBytesToNumeric (bs : list byte) (isLittleEndian : bool) : Z :=
  le_decode (if isLittleEndian then bs else rev bs).

Definition in_bounds (b : ArrayBuffer) (byteOffset size : Z) : bool :=
  (0 <=? byteOffset) && (byteOffset + size <=? byteLength b).

(** GetViewValue and SetViewValue: the range is checked before any byte
    is read or written. *)
Definition GetViewValue (b : ArrayBuffer) (byteOffset : Z) (size : nat)
    (littleEndian : option bool) : outcome Z :=
  if in_bounds b byteOffset (Z.of_nat size) then
    Ok (RawBytesToNumeric (take size (drop (Z.to_nat byteOffset) b))
          (ToBoolean littleEndian))
  else Throw RangeError.

Definition SetViewValue (b : ArrayBuffer) (byteOffset : Z) (size : nat)
    (v : Z) (littleEndian : option bool) : outcome ArrayBuffer :=
  if in_bounds b byteOffset (Z.of_nat size) then
    Ok (take (Z.to_nat byteOffset) b
        ++ NumericToRawBytes size v (ToBoolean littleEndian)
        ++ drop (Z.to_nat byteOffset + size) b)
  else Throw RangeError.

Definition getUint8 b byteOffset := GetViewValue b byteOffset 1 None.
Definition getUint16 b byteOffset le := GetViewValue b byteOffset 2 le.
Definition getUint32 b byteOffset le := GetViewValue b byteOffset 4 le.
Definition setUint8 b byteOffset v := SetViewValue b byteOffset 1 v None.
Definition setUint16 b byteOffset v le := SetViewValue b byteOffset 2 v le.
Definition setUint32 b byteOffset v le := SetViewValue b byteOffset 4 v le.

(** [s.charCodeAt(i)]; past the end it is NaN, which a DataView stores
    as 0. *)
Definition charCodeAt (s : jsstring) (i : Z) : Z :=
  match s !! Z.to_nat i with
  | Some c => Z.of_N c
  | None => 0
  end.

(** *** Object.prototype *)

(** The properties every object literal inherits. *)
Definition ObjectPrototype_keys : list jsstring :=
  [ str "constructor"; str "__defineGetter__"; str "__defineSetter__";
    str "hasOwnProperty"; str "__lookupGetter__"; str "__lookupSetter__";
    str "isPrototypeOf"; str "propertyIsEnumerable"; str "toString";
    str "valueOf"; str "__proto__"; str "toLocaleString" ].

End JS.
Export JS.

(** ** The program *)

(** The field types of [rDef] and of [Struct._typeMap]. *)
Inductive type : Type := uint8 | uint16 | uint32 | cstring.

Definition type_name (t : type) : jsstring :=
  match t with
  | uint8 => str "uint8"
  | uint16 => str "uint16"
  | uint32 => str "uint32"
  | cstring => str "cstring"
  end.

(** An entry of [_defMap]: [{type: type, offset: offset, length: length}]. *)
Record def : Type := Def { def_type : type; def_offset : Z; def_length : Z }.

(** *** [_defMap]

    [this._defMap = {}] is an object literal used as a map from names to
    entries.  It has the properties the program assigns and those it
    inherits: from [Object.prototype], and from the entry assigned to
    [__proto__], which becomes the object's prototype instead of an own
    property. *)
Record object : Type := Object { own : gmap jsstring def; proto : option def }.

Definition empty_object : object := {| own := ∅; proto := None |}.

(** What [o[k]] evaluates to. *)
Inductive property : Type :=
| PUndefined
| PDef (d : def)
| PString (s : jsstring)
| PNumber (n : Z)
| PNative.

Definition ObjectPrototype_get (k : jsstring) : property :=
  if bool_decide (k ∈ ObjectPrototype_keys) then PNative else PUndefined.

Definition obj_get (o : object) (k : jsstring) : property :=
  if bool_decide (k = str "__proto__") then
    match proto o with
    | Some d => PDef d
    | None => PNative
    end
  else
    match own o !! k with
    | Some d => PDef d
    | None =>
        match proto o with
        | Some d =>
            if bool_decide (k = str "type") then PString (type_name (def_type d))
            else if bool_decide (k = str "offset") then PNumber (def_offset d)
            else if bool_decide (k = str "length") then PNumber (def_length d)
            else ObjectPrototype_get k
        | None => ObjectPrototype_get k
        end
    end.

(** [o[k] = d] for an entry [d]. *)
Definition obj_set (o : object) (k : jsstring) (d : def) : object :=
  if bool_decide (k = str "__proto__") then {| own := own o; proto := Some d |}
  else {| own := <[k := d]> (own o); proto := proto o |}.

(** [! p] is [negb (truthy p)]. *)
Definition truthy (p : property) : bool :=
  match p with
  | PUndefined => false
  | PDef _ => true
  | PString s => negb (bool_decide (s = []))
  | PNumber n => negb (n =? 0)
  | PNative => true
  end.

(** *** [rDef]

    [/^(uint8|uint16|uint32|cstring) (\w+)(?:\[(\d+)\])?$/].  No alternative
    of the first group is a prefix of another, and the character after the
    greedy [\w+] and [\d+] is never in their class, so the match is found
    without backtracking.  The result is [(RegExp.$1, RegExp.$2, RegExp.$3)];
    [$3] is the empty String when the bracket is absent. *)
Definition rDef_type (s : jsstring) : option (type * jsstring) :=
  match strip_prefix (str "uint8") s with
  | Some r => Some (uint8, r)
  | None =>
  match strip_prefix (str "uint16") s with
  | Some r => Some (uint16, r)
  | None =>
  match strip_prefix (str "uint32") s with
  | Some r => Some (uint32, r)
  | None =>
  match strip_prefix (str "cstring") s with
  | Some r => Some (cstring, r)
  | None => None
  end end end end.

Definition rDef_exec (s : jsstring) : option (type * jsstring * jsstring) :=
  '(type, s) ← rDef_type s;
  s ← strip_prefix (str " ") s;
  let '(name, s) := span is_word s in
  if bool_decide (name = []) then None
  else if bool_decide (s = []) then Some (type, name, [])
  else
    s ← strip_prefix (str "[") s;
    let '(digits, s) := span is_digit s in
    if bool_decide (digits = []) then None
    else if bool_decide (s = str "]") then Some (type, name, digits)
    else None.

(** *** [Struct._typeMap]: byte sizes *)

Definition byteSize (t : type) : Z :=
  match t with
  | uint8 => 1
  | uint16 => 2
  | uint32 => 4
  | cstring => 1
  end.

(** *** [_parseDefs]

    The body of the [forEach] callback, with [totalBytes] and [self._defMap]
    as the state it updates. *)
Fixpoint _parseDefs_forEach (defs : list jsstring) (totalBytes : Z)
    (defMap : object) : outcome (Z * object) :=
  match defs with
  | [] => Ok (totalBytes, defMap)
  | def :: defs' =>
      match rDef_exec def with
      | Some (type, name, count) =>
          let byteSize := byteSize type in
          let offset := totalBytes in
          let length := or_else (parseInt count) 1 in
          _parseDefs_forEach defs'
            (Number_add totalBytes (Number_mul length byteSize))
            (obj_set defMap name
               {| def_type := type; def_offset := offset; def_length := length |})
      | None => Throw (Error (str "Invalid Struct Definition: " ++ def))
      end
  end.

Definition _parseDefs (defMap : object) (defs : list jsstring)
  : outcome (Z * object) :=
  _parseDefs_forEach defs 0 defMap.

(** *** The constructor *)

Record instance : Type := Instance {
  _defMap : object;
  _buffer : ArrayBuffer;
  LITTE_ENDIAN : option bool
}.

Definition Struct (defs : list jsstring) (buffer : option ArrayBuffer)
    (isLittleEndian : option bool) : outcome instance :=
  '(totalBytes, defMap) ← _parseDefs empty_object defs;
  buffer ← match buffer with
            | Some b => Ok b
            | None => ArrayBuffer_new totalBytes
            end;
  Ok {| _defMap := defMap; _buffer := buffer; LITTE_ENDIAN := isLittleEndian |}.

Definition getLength (this : instance) : Z := byteLength (_buffer this).

Definition _getDefByName (this : instance) (name : jsstring) : outcome property :=
  let def := obj_get (_defMap this) name in
  if negb (truthy def) then Throw (Error (name ++ str "does not defined"))
  else Ok def.

(** *** [Struct._typeMap]: getters *)

Fixpoint cstring_getter_loop (n : nat) (b : ArrayBuffer) (offset : Z)
    (acc : jsstring) : outcome jsstring :=
  match n with
  | O => Ok acc
  | S n' =>
      c ← getUint8 b offset;
      if c =? 0 then Ok acc
      else cstring_getter_loop n' b (offset + 1) (acc ++ [Z.to_N c])
  end.

Definition getter (t : type) (this : instance) (offset length : Z)
  : outcome value :=
  match t with
  | uint8 => VNumber <$> getUint8 (_buffer this) offset
  | uint16 => VNumber <$> getUint16 (_buffer this) offset (LITTE_ENDIAN this)
  | uint32 => VNumber <$> getUint32 (_buffer this) offset (LITTE_ENDIAN this)
  | cstring =>
      VString <$> cstring_getter_loop (Z.to_nat length) (_buffer this) offset []
  end.

(** [def.type], [def.offset] and [def.length] of what [_getDefByName]
    returned; they are [undefined] on anything that is no entry, and
    [Struct._typeMap[undefined]] has no [getter] or [setter] to read. *)
Definition get (this : instance) (name : jsstring) : outcome value :=
  def ← _getDefByName this name;
  match def with
  | PDef d => getter (def_type d) this (def_offset d) (def_length d)
  | _ => Throw TypeError
  end.

(** *** [Struct._typeMap]: setters *)

(** [this] once its buffer holds [b]. *)
Definition with_buffer (this : instance) (b : ArrayBuffer) : instance :=
  {| _defMap := _defMap this; _buffer := b; LITTE_ENDIAN := LITTE_ENDIAN this |}.

(** The object after a write to its buffer: the write's result when it
    returned, the object as it was when it threw. *)
Definition store (this : instance) (r : outcome ArrayBuffer)
  : outcome unit * instance :=
  match r with
  | Ok b => (Ok (), with_buffer this b)
  | Throw e => (Throw e, this)
  | Hang => (Hang, this)
  end.

(** The [for] loop of the [cstring] setter: [n] iterations are left, [i] is
    the index into [value] and [offset] the next byte to write.  It returns
    the buffer as the loop left it and the final [offset]. *)
Fixpoint cstring_setter_loop (n : nat) (value : jsstring) (i offset : Z)
    (b : ArrayBuffer) : outcome Z * ArrayBuffer :=
  match n with
  | O => (Ok offset, b)
  | S n' =>
      match setUint8 b offset (charCodeAt value i) with
      | Ok b' => cstring_setter_loop n' value (i + 1) (offset + 1) b'
      | Throw e => (Throw e, b)
      | Hang => (Hang, b)
      end
  end.

Section Setters.

(** ToNumber on a String, truncated to an integer (0 when it is NaN or
    infinite), as the integer setters of a DataView take it.  It is the
    runtime's and stays a parameter. *)
Variable StringToNumber : jsstring -> Z.

Definition ToNumber (v : value) : Z :=
  match v with
  | VNumber n => n
  | VString s => StringToNumber s
  end.

Definition setter (t : type) (this : instance) (value : value)
    (offset length : Z) : outcome unit * instance :=
  match t with
  | uint8 => store this (setUint8 (_buffer this) offset (ToNumber value))
  | uint16 =>
      store this
        (setUint16 (_buffer this) offset (ToNumber value) (LITTE_ENDIAN this))
  | uint32 =>
      store this
        (setUint32 (_buffer this) offset (ToNumber value) (LITTE_ENDIAN this))
  | cstring =>
      (* [value.length] is [undefined] on a Number, [Math.min] of it is
         NaN and [i < NaN] is false: the loop body does not run. *)
      let n :=
        match value with
        | VString s => Z.to_nat (Z.min (Z.of_nat (List.length s)) (length - 1))
        | VNumber _ => O
        end in
      let s := match value with VString s => s | VNumber _ => [] end in
      match cstring_setter_loop n s 0 offset (_buffer this) with
      | (Ok offset, b) => store (with_buffer this b) (setUint8 b offset 0)
      | (Throw e, b) => (Throw e, with_buffer this b)
      | (Hang, b) => (Hang, with_buffer this b)
      end
  end.

Definition set (this : instance) (name : jsstring) (value : value)
  : outcome unit * instance :=
  match _getDefByName this name with
  | Ok (PDef d) => setter (def_type d) this value (def_offset d) (def_length d)
  | Ok _ => (Throw TypeError, this)
  | Throw e => (Throw e, this)
  | Hang => (Hang, this)
  end.

End Setters.

(** *** [eachByte], [_padZero] and [Struct._toStringMap] *)

(** The loop of [eachByte]; [acc] is the state the callback updates. *)
Fixpoint eachByte_loop {A} (n : nat) (this : instance) (i : Z)
    (callback : Z -> Z -> A -> outcome A) (acc : A) : outcome A :=
  match n with
  | O => Ok acc
  | S n' =>
      v ← getUint8 (_buffer this) i;
      acc ← callback v i acc;
      eachByte_loop n' this (i + 1) callback acc
  end.

Definition eachByte {A} (this : instance)
    (callback : Z -> Z -> A -> outcome A) (acc : A) : outcome A :=
  let len := getLength this in
  eachByte_loop (Z.to_nat len) this 0 callback acc.

Fixpoint _padZero_loop (len : nat) (str : jsstring) : jsstring :=
  match len with
  | O => str
  | S len' => _padZero_loop len' (48%N :: str)
  end.

(** [while (len--)] ends when [len] reaches 0, which a negative [len] never
    does. *)
Definition _padZero (str : jsstring) (count : Z) : outcome jsstring :=
  let len := count - Z.of_nat (List.length str) in
  if len <? 0 then Hang else Ok (_padZero_loop (Z.to_nat len) str).

Definition toString_hex (this : instance) : outcome jsstring :=
  eachByte this
    (fun v _ str => hex ← _padZero (Number_toString v 16) 2; Ok (str ++ hex)) [].

Definition toString_binary (this : instance) : outcome jsstring :=
  eachByte this
    (fun v _ str => bin ← _padZero (Number_toString v 2) 8; Ok (str ++ bin)) [].

(** What [toString] can return: the text of a renderer, or what the
    functions of [Object.prototype] return when called on the instance. *)
Inductive rendering : Type :=
| RString (s : jsstring)
| RBoolean (b : bool)
| RUndefined
| RObject.

(** [Struct._toStringMap[type].call(this)] for a [type] that the table
    inherits from [Object.prototype]: [toLocaleString] calls
    [this.toString()], [constructor] is [Object], the property tests and
    lookups are asked about the name [undefined]; [__defineGetter__] and
    [__defineSetter__] reject the missing function and [__proto__] is no
    function, which the last branch covers. *)
Definition ObjectPrototype_call (type : jsstring) (this : instance)
  : outcome rendering :=
  if bool_decide (type = str "toString") then Ok (RString (str "[object Object]"))
  else if bool_decide (type = str "toLocaleString") then
    RString <$> toString_hex this
  else if bool_decide (type ∈ [str "valueOf"; str "constructor"]) then Ok RObject
  else if bool_decide (type ∈ [str "hasOwnProperty"; str "isPrototypeOf";
                               str "propertyIsEnumerable"]) then
    Ok (RBoolean false)
  else if bool_decide (type ∈ [str "__lookupGetter__"; str "__lookupSetter__"])
  then Ok RUndefined
  else Throw TypeError.

(** [toString(type)]; [None] is a call without argument. *)
Definition toString (this : instance) (type : option jsstring)
  : outcome rendering :=
  let type :=
    match type with
    | Some (c :: s) => c :: s
    | Some [] | None => str "hex"
    end in
  if bool_decide (type = str "hex") then RString <$> toString_hex this
  else if bool_decide (type = str "binary") then RString <$> toString_binary this
  else if bool_decide (type ∈ ObjectPrototype_keys) then
    ObjectPrototype_call type this
  else Throw TypeError.

(** ** The vocabulary of the properties *)

(** The descriptor grammar: [<type> <name>], then optionally a decimal count
    between brackets. *)
Definition bracket (count : jsstring) : jsstring :=
  match count with
  | [] => []
  | _ :: _ => str "[" ++ count ++ str "]"
  end.

Definition descriptor (t : type) (name count : jsstring) : jsstring :=
  type_name t ++ str " " ++ name ++ bracket count.

Definition matches_grammar (s : jsstring) : Prop :=
  ∃ t name count,
    name ≠ [] ∧ Forall (λ c, is_word c = true) name ∧
    Forall (λ c, is_digit c = true) count ∧ s = descriptor t name count.

(** The element count a descriptor declares: the integer its digits
    denote, or 1 when it has no count or the count 0; and its footprint,
    the count times the byte size of its type. *)
Definition count_of (count : jsstring) : Z :=
  if decimal count =? 0 then 1 else decimal count.

Definition footprint (def : jsstring) : Z :=
  match rDef_exec def with
  | Some (type, _, count) => count_of count * byteSize type
  | None => 0
  end.

Definition sumZ (l : list Z) : Z := foldr Z.add 0 l.

(** The sum of the footprints of the descriptors before index [i]. *)
Definition offset_at (defs : list jsstring) (i : nat) : Z :=
  sumZ (footprint <$> take i defs).

(** The bytes of a field up to its first zero byte. *)
Fixpoint until_zero (bs : list byte) : list byte :=
  match bs with
  | [] => []
  | b :: bs' => if Z_of_byte b =? 0 then [] else b :: until_zero bs'
  end.

(** The byte a setter stores for a code unit, and the code unit a getter
    returns for a byte. *)
Definition byte_of_code (c : N) : byte := byte_of_Z (Z.of_N c).

(** A byte as [width] digits in [radix], most significant first. *)
Definition numeral (radix : Z) (width : nat) (b : byte) : jsstring :=
  (λ k : nat, digit_char (Z_of_byte b / radix ^ Z.of_nat k mod radix))
    <$> rev (seq 0 width).

(** An entry lies in a layout of [totalBytes] bytes. *)
Definition in_layout (d : def) (totalBytes : Z) : Prop :=
  0 <= def_offset d ∧ 1 <= def_length d ∧
  def_offset d + def_length d * byteSize (def_type d) <= totalBytes.

(** Every entry of an instance lies in its buffer. *)
Definition well_sized (this : instance) : Prop :=
  ∀ name d, obj_get (_defMap this) name = PDef d -> in_layout d (getLength this).

(** The width in bytes of an integer type, and the byte order its accessors
    pass to the DataView: [uint8] passes none. *)
Definition width (t : type) : nat := Z.to_nat (byteSize t).
Definition order (t : type) (this : instance) : option bool :=
  match t with
  | uint8 => None
  | _ => LITTE_ENDIAN this
  end.

(** What [eachByte] computes: the callback folded over the bytes of the
    buffer, from index [i] upwards. *)
Fixpoint fold_bytes {A} (callback : Z -> Z -> A -> outcome A) (i : Z)
    (bs : list byte) (acc : A) : outcome A :=
  match bs with
  | [] => Ok acc
  | b :: bs' =>
      acc ← callback (Z_of_byte b) i acc; fold_bytes callback (i + 1) bs' acc
  end.

(** The layout of the example in the documentation of [Struct]. *)
Definition packet : list jsstring :=
  [ str "uint16 packetId"; str "uint32 statusCode"; str "cstring method[11]";
    str "uint8 bodyType"; str "uint32 bodyLength" ].

(** A layout past 2^53 bytes: one byte, then a [cstring] of 2^53 elements,
    then one more byte. *)
Definition oversized : list jsstring :=
  [ str "uint8 a"; str "cstring b[9007199254740992]"; str "uint8 c" ].

(** The descriptor [def] declares the field [name]. *)
Definition declares (def name : jsstring) : Prop :=
  ∃ type count, rDef_exec def = Some (type, name, count).

Section Instances.

Variable StringToNumber : jsstring -> Z.

(** The instances a program can hold: built by the constructor, which
    allocated the buffer or was given one that holds the layout, and
    then changed by calls of [set].  A buffer that was given is an
    ArrayBuffer, of at most [MAX_BYTE_LENGTH] bytes like any other. *)
Inductive record_instance : instance -> Prop :=
| ri_new defs isLittleEndian this :
    Struct defs None isLittleEndian = Ok this ->
    record_instance this
| ri_wrap defs buffer isLittleEndian totalBytes defMap this :
    _parseDefs empty_object defs = Ok (totalBytes, defMap) ->
    totalBytes <= byteLength buffer ->
    byteLength buffer <= MAX_BYTE_LENGTH ->
    Struct defs (Some buffer) isLittleEndian = Ok this ->
    record_instance this
| ri_set this name value r this' :
    record_instance this ->
    set StringToNumber this name value = (r, this') ->
    record_instance this'.

End Instances.

(** ** The runtime: bytes, integers and views *)

Lemma Z_of_byte_range (b : byte) : 0 <= Z_of_byte b < 256.
Proof.
  unfold Z_of_byte. pose proof (Byte.to_N_bounded b). lia.
Qed.

Lemma Z_of_byte_of_Z (z : Z) : Z_of_byte (byte_of_Z z) = z mod 256.
Proof.
  unfold Z_of_byte, byte_of_Z.
  pose proof (Z.mod_pos_bound z 256 ltac:(lia)) as Hr.
  destruct (Byte.of_N (Z.to_N (z mod 256))) as [b|] eqn:E.
  - apply Byte.to_of_N in E. simpl. rewrite E. lia.
  - apply Byte.of_N_None_iff in E. lia.
Qed.

Lemma byte_of_Z_of_byte (b : byte) : byte_of_Z (Z_of_byte b) = b.
Proof.
  unfold byte_of_Z, Z_of_byte.
  pose proof (Byte.to_N_bounded b).
  rewrite Z.mod_small by lia. rewrite N2Z.id, Byte.of_to_N. reflexivity.
Qed.

Lemma length_le_encode (size : nat) (v : Z) : length (le_encode size v) = size.
Proof.
  revert v. induction size as [|size IH]; intros v; simpl; [|rewrite IH]; done.
Qed.

Lemma le_decode_encode (size : nat) (v : Z) :
  le_decode (le_encode size v) = v mod 256 ^ Z.of_nat size.
Proof.
  revert v. induction size as [|size IH]; intros v.
  - simpl. rewrite Z.mod_1_r. reflexivity.
  - cbn [le_encode le_decode]. rewrite IH, Z_of_byte_of_Z.
    rewrite Nat2Z.inj_succ, Z.pow_succ_r by lia.
    rewrite (Z.rem_mul_r v 256 (256 ^ Z.of_nat size)); lia.
Qed.

Lemma RawBytes_roundtrip (size : nat) (v : Z) (l : bool) :
  RawBytesToNumeric (NumericToRawBytes size v l) l = v mod 256 ^ Z.of_nat size.
Proof.
  unfold RawBytesToNumeric, NumericToRawBytes.
  destruct l; [|rewrite rev_involutive]; apply le_decode_encode.
Qed.

Lemma length_NumericToRawBytes (size : nat) (v : Z) (l : bool) :
  length (NumericToRawBytes size v l) = size.
Proof.
  unfold NumericToRawBytes. destruct l; [|rewrite length_rev];
    apply length_le_encode.
Qed.

(** A view operation on a buffer split around the bytes it touches. *)
Lemma in_bounds_app (pre mid post : list byte) :
  in_bounds (pre ++ mid ++ post) (Z.of_nat (length pre)) (Z.of_nat (length mid))
  = true.
Proof.
  unfold in_bounds, byteLength. rewrite !length_app.
  apply andb_true_intro. split; [apply Z.leb_le | apply Z.leb_le]; lia.
Qed.

Lemma GetViewValue_app (pre mid post : list byte) (le : option bool) :
  GetViewValue (pre ++ mid ++ post) (Z.of_nat (length pre)) (length mid) le
  = Ok (RawBytesToNumeric mid (ToBoolean le)).
Proof.
  unfold GetViewValue. rewrite in_bounds_app, Nat2Z.id.
  rewrite drop_app_length, take_app_length. reflexivity.
Qed.

Lemma SetViewValue_app (pre mid post : list byte) (v : Z) (le : option bool) :
  SetViewValue (pre ++ mid ++ post) (Z.of_nat (length pre)) (length mid) v le
  = Ok (pre ++ NumericToRawBytes (length mid) v (ToBoolean le) ++ post).
Proof.
  unfold SetViewValue. rewrite in_bounds_app, Nat2Z.id.
  rewrite take_app_length.
  rewrite <- drop_drop, drop_app_length, drop_app_length. reflexivity.
Qed.

(** Every range inside a buffer splits it that way. *)
Lemma buffer_split (b : list byte) (offset size : Z) :
  0 <= offset -> 0 <= size -> offset + size <= byteLength b ->
  ∃ pre mid post,
    b = pre ++ mid ++ post ∧ Z.of_nat (length pre) = offset ∧
    Z.of_nat (length mid) = size ∧
    pre = take (Z.to_nat offset) b ∧
    mid = take (Z.to_nat size) (drop (Z.to_nat offset) b) ∧
    post = drop (Z.to_nat offset + Z.to_nat size) b.
Proof.
  unfold byteLength. intros Ho Hs Hb.
  exists (take (Z.to_nat offset) b),
    (take (Z.to_nat size) (drop (Z.to_nat offset) b)),
    (drop (Z.to_nat offset + Z.to_nat size) b).
  repeat split.
  - rewrite <- drop_drop, !take_drop. reflexivity.
  - rewrite length_take. lia.
  - rewrite length_take, length_drop. lia.
Qed.

(** ** [rDef] and the descriptor grammar *)

Lemma strip_prefix_Some (p s r : jsstring) :
  strip_prefix p s = Some r ↔ s = p ++ r.
Proof.
  revert s. induction p as [|a p IH]; intros s; simpl.
  - split; [intros [= ->] | intros ->]; reflexivity.
  - destruct s as [|b s]; [split; discriminate|].
    destruct (N.eqb_spec a b) as [->|Hne].
    + rewrite IH. split; [intros -> | intros [= ->]]; reflexivity.
    + split; [discriminate | intros [= -> _]; contradiction].
Qed.

Lemma span_spec (p : N -> bool) (s l r : jsstring) :
  span p s = (l, r) ->
  s = l ++ r ∧ Forall (λ c, p c = true) l ∧
  match r with c :: _ => p c = false | [] => True end.
Proof.
  revert l r. induction s as [|c s IH]; intros l r; simpl.
  - intros [= <- <-]. auto.
  - destruct (p c) eqn:Ec.
    + destruct (span p s) as [l' r'] eqn:Es. intros [= <- <-].
      destruct (IH l' r' eq_refl) as (-> & Hl & Hr). auto.
    + intros [= <- <-]. simpl. rewrite Ec. auto.
Qed.

Lemma span_app (p : N -> bool) (l r : jsstring) :
  Forall (λ c, p c = true) l ->
  match r with c :: _ => p c = false | [] => True end ->
  span p (l ++ r) = (l, r).
Proof.
  intros Hl Hr. induction Hl as [|c l Hc _ IH]; simpl.
  - destruct r as [|c r]; [reflexivity|]. simpl. rewrite Hr. reflexivity.
  - rewrite Hc, IH. reflexivity.
Qed.

Lemma rDef_type_sound (s r : jsstring) (t : type) :
  rDef_type s = Some (t, r) -> s = type_name t ++ r.
Proof.
  unfold rDef_type.
  repeat match goal with
         | |- context [strip_prefix ?p s] =>
             let E := fresh "E" in
             destruct (strip_prefix p s) eqn:E;
             [apply strip_prefix_Some in E; intros [= <- <-]; exact E|]
         end.
  discriminate.
Qed.

Lemma rDef_type_complete (t : type) (r : jsstring) :
  rDef_type (type_name t ++ r) = Some (t, r).
Proof. destruct t; reflexivity. Qed.

Lemma rDef_exec_sound (s name count : jsstring) (t : type) :
  rDef_exec s = Some (t, name, count) ->
  name ≠ [] ∧ Forall (λ c, is_word c = true) name ∧
  Forall (λ c, is_digit c = true) count ∧ s = descriptor t name count.
Proof.
  unfold rDef_exec, descriptor, bracket.
  destruct (rDef_type s) as [[t' s1]|] eqn:Et; cbn [mbind option_bind];
    [|discriminate].
  apply rDef_type_sound in Et. subst s.
  destruct (strip_prefix (str " ") s1) as [s2|] eqn:Esp;
    cbn [mbind option_bind]; [|discriminate].
  apply strip_prefix_Some in Esp. subst s1.
  destruct (span is_word s2) as [nm s3] eqn:En.
  apply span_spec in En. destruct En as (-> & Hnm & _).
  case_bool_decide as Hn; [discriminate|].
  case_bool_decide as Hs3.
  - intros [= <- <- <-]. subst s3. rewrite app_nil_r. auto.
  - destruct (strip_prefix (str "[") s3) as [s4|] eqn:Eb;
      cbn [mbind option_bind]; [|discriminate].
    apply strip_prefix_Some in Eb. subst s3.
    destruct (span is_digit s4) as [ds s5] eqn:Ed.
    apply span_spec in Ed. destruct Ed as (-> & Hds & _).
    case_bool_decide as Hd; [discriminate|].
    case_bool_decide as H5; [|discriminate].
    intros [= <- <- <-]. subst s5. destruct ds; [done|]. auto.
Qed.

Lemma rDef_exec_complete (t : type) (name count : jsstring) :
  name ≠ [] -> Forall (λ c, is_word c = true) name ->
  Forall (λ c, is_digit c = true) count ->
  rDef_exec (descriptor t name count) = Some (t, name, count).
Proof.
  intros Hn Hw Hd. unfold rDef_exec, descriptor.
  rewrite rDef_type_complete. cbn [mbind option_bind].
  replace (strip_prefix (str " ") (str " " ++ name ++ bracket count))
    with (Some (name ++ bracket count)) by reflexivity.
  cbn [mbind option_bind].
  rewrite (span_app is_word name (bracket count)); [|done|by destruct count].
  rewrite bool_decide_eq_false_2 by done.
  destruct count as [|d ds]; [reflexivity|].
  cbn [bracket]. rewrite bool_decide_eq_false_2 by done.
  replace (strip_prefix (str "[") (str "[" ++ (d :: ds) ++ str "]"))
    with (Some ((d :: ds) ++ str "]")) by reflexivity.
  cbn [mbind option_bind].
  rewrite (span_app is_digit (d :: ds) (str "]")); [|done|reflexivity].
  rewrite bool_decide_eq_false_2 by done.
  rewrite bool_decide_eq_true_2 by done. reflexivity.
Qed.

(** [rDef] accepts exactly the descriptors of the grammar. *)
Lemma rDef_exec_grammar (s : jsstring) :
  is_Some (rDef_exec s) ↔ matches_grammar s.
Proof.
  split.
  - intros [[[t name] count] E]. apply rDef_exec_sound in E.
    exists t, name, count. tauto.
  - intros (t & name & count & Hn & Hw & Hd & ->).
    rewrite rDef_exec_complete by done. eauto.
Qed.

Lemma rDef_exec_None (s : jsstring) :
  rDef_exec s = None ↔ ¬ matches_grammar s.
Proof.
  rewrite <- rDef_exec_grammar, <- eq_None_not_Some. reflexivity.
Qed.

(** ** Double arithmetic on the integers of a layout *)

Lemma Infinity_big : 2 ^ 53 <= Infinity.
Proof. unfold Infinity. apply Z.pow_le_mono_r; lia. Qed.

Lemma nearest_double_small (z : Z) : z < 2 ^ 53 -> nearest_double z = z.
Proof.
  intros H. unfold nearest_double.
  destruct (Z.ltb_spec z (2 ^ 53)); [reflexivity|lia].
Qed.

Lemma nearest_double_big (z : Z) : 2 ^ 53 <= z -> 2 ^ 53 <= nearest_double z.
Proof.
  intros H. unfold nearest_double.
  destruct (Z.ltb_spec z (2 ^ 53)) as [|_]; [lia|].
  assert (Hl : 53 <= Z.log2 z) by (apply Z.log2_le_pow2; lia).
  set (ulp := 2 ^ (Z.log2 z - 52)).
  assert (Hu : 2 <= ulp).
  { change 2 with (2 ^ 1) at 1. apply Z.pow_le_mono_r; lia. }
  assert (Hq : 2 ^ 52 <= z / ulp).
  { apply Z.div_le_lower_bound; [lia|].
    unfold ulp. rewrite Z.mul_comm, <- Z.pow_add_r by lia.
    replace (52 + (Z.log2 z - 52)) with (Z.log2 z) by lia.
    apply Z.log2_spec. lia. }
  cbv zeta. apply Z.min_glb; [|exact Infinity_big].
  set (q' := if 2 * (z mod ulp) <? ulp then _ else _).
  assert (Hq' : z / ulp <= q').
  { subst q'. repeat match goal with |- context [if ?b then _ else _] =>
      destruct b end; lia. }
  nia.
Qed.

Lemma round_double_nonneg (z : Z) : 0 <= z -> round_double z = nearest_double z.
Proof.
  intros H. unfold round_double. rewrite Z.abs_eq by exact H.
  destruct (Z.eq_dec z 0) as [->|Hz]; [reflexivity|].
  rewrite Z.sgn_pos by lia. lia.
Qed.

(** Up to 2^53 an integer is its own Number. *)
Lemma round_double_exact (z : Z) : 0 <= z <= 2 ^ 53 -> round_double z = z.
Proof.
  intros H. rewrite round_double_nonneg by lia.
  destruct (Z.eq_dec z (2 ^ 53)) as [->|Hz]; [vm_compute; reflexivity|].
  apply nearest_double_small. lia.
Qed.

(** A Number below 2^53 comes from no other integer. *)
Lemma round_double_below (z : Z) :
  0 <= z -> round_double z < 2 ^ 53 -> round_double z = z ∧ z < 2 ^ 53.
Proof.
  intros H. rewrite round_double_nonneg by exact H. intros Hb.
  destruct (Z.lt_ge_cases z (2 ^ 53)) as [Hz|Hz].
  - split; [apply nearest_double_small|]; exact Hz.
  - apply nearest_double_big in Hz. lia.
Qed.

Lemma round_double_pos (z : Z) : 1 <= z -> 1 <= round_double z.
Proof.
  intros H. rewrite round_double_nonneg by lia.
  destruct (Z.lt_ge_cases z (2 ^ 53)) as [Hz|Hz].
  - rewrite nearest_double_small by exact Hz. exact H.
  - apply nearest_double_big in Hz. lia.
Qed.

(** ** [parseInt] on the count of a descriptor *)

Lemma fold_decimal_nonneg (ds : jsstring) (acc : Z) :
  Forall (λ c, is_digit c = true) ds -> 0 <= acc ->
  0 <= fold_left (λ acc c, 10 * acc + (Z.of_N c - 48)) ds acc.
Proof.
  intros Hds. revert acc. induction Hds as [|c ds Hc _ IH]; intros acc Hacc.
  - exact Hacc.
  - simpl. apply IH. unfold is_digit in Hc.
    apply andb_prop in Hc. destruct Hc as [H1 H2].
    apply N.leb_le in H1, H2. lia.
Qed.

Lemma decimal_nonneg (ds : jsstring) :
  Forall (λ c, is_digit c = true) ds -> 0 <= decimal ds.
Proof. intros H. apply fold_decimal_nonneg; [exact H | lia]. Qed.

Lemma is_digit_range (c : N) : is_digit c = true ↔ (48 <= c <= 57)%N.
Proof.
  unfold is_digit. rewrite andb_true_iff, !N.leb_le. reflexivity.
Qed.

Lemma digit_not_white (c : N) : is_digit c = true -> is_white c = false.
Proof.
  rewrite is_digit_range. intros H.
  assert (Hc : c ∈ [48; 49; 50; 51; 52; 53; 54; 55; 56; 57]%N).
  { rewrite !elem_of_cons. lia. }
  rewrite !elem_of_cons, elem_of_nil in Hc.
  repeat destruct Hc as [->|Hc]; try reflexivity. contradiction.
Qed.

Lemma parseInt_digits (count : jsstring) :
  Forall (λ c, is_digit c = true) count ->
  parseInt count
  = match count with
    | [] => None
    | _ :: _ => Some (round_double (decimal count))
    end.
Proof.
  intros Hd. destruct Hd as [|c ds Hc Hds]; [reflexivity|].
  unfold parseInt.
  cbn [span]. rewrite (digit_not_white c Hc). cbn [snd].
  assert (Hs : strip_prefix (str "-") (c :: ds) = None
               ∧ strip_prefix (str "+") (c :: ds) = None).
  { apply is_digit_range in Hc.
    change (str "-") with [45%N]. change (str "+") with [43%N].
    cbn [strip_prefix].
    destruct (N.eqb_spec 45 c); [lia|]. destruct (N.eqb_spec 43 c); [lia|].
    done. }
  destruct Hs as [-> ->].
  rewrite <- (app_nil_r (c :: ds)) at 1.
  rewrite span_app; [|by constructor|done].
  cbn [fst]. rewrite Z.mul_1_l. reflexivity.
Qed.

Lemma count_of_pos (count : jsstring) :
  Forall (λ c, is_digit c = true) count -> 1 <= count_of count.
Proof.
  intros Hd. unfold count_of. pose proof (decimal_nonneg count Hd).
  destruct (Z.eqb_spec (decimal count) 0); lia.
Qed.

(** The length the compiler stores for a count is the Number for it. *)
Lemma length_of_count (count : jsstring) :
  Forall (λ c, is_digit c = true) count ->
  or_else (parseInt count) 1 = round_double (count_of count).
Proof.
  intros Hd. rewrite parseInt_digits by done.
  pose proof (decimal_nonneg count Hd) as Hdec. unfold count_of.
  destruct count as [|c ds]; cbn [or_else]; [reflexivity|].
  destruct (Z.eqb_spec (decimal (c :: ds)) 0) as [->|Hne]; [reflexivity|].
  pose proof (round_double_pos (decimal (c :: ds))).
  destruct (Z.eqb_spec (round_double (decimal (c :: ds))) 0); [lia|done].
Qed.

Lemma count_of_zeros (count : jsstring) :
  Forall (λ c, c = 48%N) count -> count_of count = 1.
Proof.
  intros Hz. unfold count_of.
  assert (Hdec : decimal count = 0).
  { unfold decimal. induction Hz as [|x l -> _ IH]; [reflexivity|exact IH]. }
  rewrite Hdec. reflexivity.
Qed.

Lemma byteSize_pos (t : type) : 1 <= byteSize t.
Proof. destruct t; simpl; lia. Qed.

Lemma footprint_pos (def : jsstring) :
  is_Some (rDef_exec def) -> 1 <= footprint def.
Proof.
  intros [[[t name] count] E]. unfold footprint. rewrite E.
  apply rDef_exec_sound in E. destruct E as (_ & _ & Hd & _).
  pose proof (count_of_pos count Hd). pose proof (byteSize_pos t). nia.
Qed.

Lemma footprint_nonneg (def : jsstring) : 0 <= footprint def.
Proof.
  destruct (rDef_exec def) eqn:E.
  - pose proof (footprint_pos def) as H. rewrite E in H.
    specialize (H ltac:(eauto)). lia.
  - unfold footprint. rewrite E. lia.
Qed.

(** ** [_defMap] as a map *)

Lemma obj_get_set_eq (o : object) (k : jsstring) (d : def) :
  obj_get (obj_set o k d) k = PDef d.
Proof.
  unfold obj_get, obj_set. case_bool_decide as Hk; simpl; [reflexivity|].
  rewrite lookup_insert_eq. reflexivity.
Qed.

(** An entry is read back only from where an assignment put it. *)
Lemma obj_get_PDef (o : object) (k : jsstring) (d : def) :
  obj_get o k = PDef d ↔
  if bool_decide (k = str "__proto__") then proto o = Some d
  else own o !! k = Some d.
Proof.
  unfold obj_get, ObjectPrototype_get. case_bool_decide as Hk.
  - destruct (proto o); split; congruence.
  - destruct (own o !! k); [split; congruence|].
    split; [|discriminate].
    destruct (proto o); repeat case_bool_decide; discriminate.
Qed.

Lemma obj_get_set_PDef (o : object) (k k' : jsstring) (d d' : def) :
  obj_get (obj_set o k d) k' = PDef d' ->
  (k' = k ∧ d' = d) ∨ (k' ≠ k ∧ obj_get o k' = PDef d').
Proof.
  destruct (decide (k' = k)) as [->|Hne].
  - rewrite obj_get_set_eq. intros [= ->]. auto.
  - rewrite !obj_get_PDef. unfold obj_set.
    repeat case_bool_decide; simpl; try congruence; auto.
    rewrite lookup_insert_ne by done. auto.
Qed.

Lemma obj_get_set_ne (o : object) (k k' : jsstring) (d d' : def) :
  k' ≠ k -> obj_get o k' = PDef d' -> obj_get (obj_set o k d) k' = PDef d'.
Proof.
  intros Hne. rewrite !obj_get_PDef. unfold obj_set.
  repeat case_bool_decide; simpl; try congruence.
  rewrite lookup_insert_ne by done. auto.
Qed.

(** ** The layout compiler *)

Lemma sumZ_app (l1 l2 : list Z) : sumZ (l1 ++ l2) = sumZ l1 + sumZ l2.
Proof. unfold sumZ. induction l1 as [|x l1 IH]; simpl; lia. Qed.

Lemma offset_at_S (defs : list jsstring) (i : nat) (def : jsstring) :
  defs !! i = Some def -> offset_at defs (S i) = offset_at defs i + footprint def.
Proof.
  intros Hi. unfold offset_at. rewrite (take_S_r _ _ _ Hi), fmap_app, sumZ_app.
  simpl. lia.
Qed.

Lemma offset_at_mono (defs : list jsstring) (i j : nat) :
  (i <= j)%nat -> offset_at defs i <= offset_at defs j.
Proof.
  induction 1 as [|j _ IH]; [lia|].
  destruct (defs !! j) as [def|] eqn:Ej.
  - rewrite (offset_at_S _ _ _ Ej). pose proof (footprint_nonneg def). lia.
  - apply lookup_ge_None in Ej. unfold offset_at in *.
    rewrite (take_ge defs (S j)) by lia. rewrite (take_ge defs j) in IH by lia.
    exact IH.
Qed.

Lemma offset_at_all (defs : list jsstring) :
  offset_at defs (length defs) = sumZ (footprint <$> defs).
Proof. unfold offset_at. rewrite firstn_all. reflexivity. Qed.

Lemma forEach_app (l1 l2 : list jsstring) (t : Z) (m : object) :
  _parseDefs_forEach (l1 ++ l2) t m
  = '(t', m') ← _parseDefs_forEach l1 t m; _parseDefs_forEach l2 t' m'.
Proof.
  revert t m. induction l1 as [|def l1 IH]; intros t m; [reflexivity|].
  simpl. destruct (rDef_exec def) as [[[ty name] count]|]; [apply IH|reflexivity].
Qed.

Lemma sumZ_footprint_nonneg (defs : list jsstring) :
  0 <= sumZ (footprint <$> defs).
Proof.
  induction defs as [|def defs IH]; [simpl; lia|].
  change (sumZ (footprint <$> def :: defs))
    with (footprint def + sumZ (footprint <$> defs)).
  pose proof (footprint_nonneg def). lia.
Qed.

Lemma footprint_exec (def name count : jsstring) (ty : type) :
  rDef_exec def = Some (ty, name, count) ->
  footprint def = count_of count * byteSize ty ∧ 1 <= count_of count ∧
  or_else (parseInt count) 1 = round_double (count_of count).
Proof.
  intros E. unfold footprint. rewrite E. split; [reflexivity|].
  apply rDef_exec_sound in E. destruct E as (_ & _ & Hd & _).
  split; [exact (count_of_pos count Hd)|exact (length_of_count count Hd)].
Qed.

(** One step of the running total: exact while the total stays within
    2^53, and no total below 2^53 comes from a rounded step. *)
Lemma total_step_exact (t c b : Z) :
  0 <= t -> 1 <= c -> 1 <= b -> t + c * b <= 2 ^ 53 ->
  round_double c = c ∧
  Number_add t (Number_mul (round_double c) b) = t + c * b.
Proof.
  intros Ht Hc Hb Hfit. unfold Number_add, Number_mul.
  rewrite (round_double_exact c) by nia.
  rewrite (round_double_exact (c * b)) by nia.
  split; [reflexivity|]. apply round_double_exact. nia.
Qed.

Lemma total_step_below (t c b : Z) :
  0 <= t -> 1 <= c -> 1 <= b ->
  Number_add t (Number_mul (round_double c) b) < 2 ^ 53 ->
  round_double c = c ∧
  Number_add t (Number_mul (round_double c) b) = t + c * b.
Proof.
  intros Ht Hc Hb. unfold Number_add, Number_mul.
  pose proof (round_double_pos c Hc) as Hr.
  assert (Hm : 1 <= round_double (round_double c * b))
    by (apply round_double_pos; nia).
  intros Hlt. apply round_double_below in Hlt; [|lia].
  destruct Hlt as [-> Hlt].
  destruct (round_double_below (round_double c * b)) as [Em Hlm]; [nia|lia|].
  destruct (round_double_below c) as [Ec _]; [lia|nia|].
  rewrite Em, Ec. done.
Qed.

Lemma total_step_nonneg (t c b : Z) :
  0 <= t -> 1 <= c -> 1 <= b ->
  0 <= Number_add t (Number_mul (round_double c) b).
Proof.
  intros Ht Hc Hb. unfold Number_add, Number_mul.
  pose proof (round_double_pos c Hc) as Hr.
  assert (Hm : 1 <= round_double (round_double c * b))
    by (apply round_double_pos; nia).
  assert (1 <= round_double (t + round_double (round_double c * b)))
    by (apply round_double_pos; lia).
  lia.
Qed.

Lemma forEach_total (defs : list jsstring) (t t' : Z) (m m' : object) :
  0 <= t -> t + sumZ (footprint <$> defs) <= 2 ^ 53 ->
  _parseDefs_forEach defs t m = Ok (t', m') ->
  t' = t + sumZ (footprint <$> defs).
Proof.
  revert t m. induction defs as [|def defs IH]; intros t m Ht;
    cbn [_parseDefs_forEach].
  - intros _ [= <- <-]. simpl. lia.
  - destruct (rDef_exec def) as [[[ty name] count]|] eqn:E; [|discriminate].
    change (sumZ (footprint <$> def :: defs))
      with (footprint def + sumZ (footprint <$> defs)).
    destruct (footprint_exec _ _ _ _ E) as (-> & Hc & ->).
    pose proof (byteSize_pos ty) as Hb.
    pose proof (sumZ_footprint_nonneg defs) as Hs.
    intros Hfit.
    destruct (total_step_exact t (count_of count) (byteSize ty)) as [_ ->];
      [lia..|].
    intros H. apply IH in H; [lia|nia|lia].
Qed.

(** A total below 2^53 is the exact sum of the footprints. *)
Lemma forEach_below (defs : list jsstring) (t t' : Z) (m m' : object) :
  0 <= t -> _parseDefs_forEach defs t m = Ok (t', m') -> t' < 2 ^ 53 ->
  t + sumZ (footprint <$> defs) = t'.
Proof.
  revert t m. induction defs as [|def defs IH]; intros t m Ht;
    cbn [_parseDefs_forEach].
  - intros [= <- <-] _. simpl. lia.
  - destruct (rDef_exec def) as [[[ty name] count]|] eqn:E; [|discriminate].
    change (sumZ (footprint <$> def :: defs))
      with (footprint def + sumZ (footprint <$> defs)).
    destruct (footprint_exec _ _ _ _ E) as (-> & Hc & ->).
    pose proof (byteSize_pos ty) as Hb.
    pose proof (sumZ_footprint_nonneg defs) as Hs.
    intros H Hlt.
    pose proof (total_step_nonneg t _ _ Ht Hc Hb) as Hn.
    pose proof (IH _ _ Hn H Hlt) as Hsum.
    destruct (total_step_below t (count_of count) (byteSize ty)) as [_ Es];
      [lia..|].
    lia.
Qed.

Lemma forEach_valid (defs : list jsstring) (t t' : Z) (m m' : object) :
  _parseDefs_forEach defs t m = Ok (t', m') ->
  Forall (λ def, is_Some (rDef_exec def)) defs.
Proof.
  revert t m. induction defs as [|def defs IH]; intros t m;
    cbn [_parseDefs_forEach]; [constructor|].
  destruct (rDef_exec def) as [[[ty name] count]|] eqn:E; [|discriminate].
  intros H. constructor; eauto.
Qed.

Lemma forEach_keep (defs : list jsstring) (t t' : Z) (m m' : object)
    (k : jsstring) (d : def) :
  _parseDefs_forEach defs t m = Ok (t', m') ->
  obj_get m k = PDef d ->
  Forall (λ def, ∀ ty c, rDef_exec def ≠ Some (ty, k, c)) defs ->
  obj_get m' k = PDef d.
Proof.
  intros H Hk HF. revert t m H Hk.
  induction HF as [|def defs Hdef _ IH]; intros t m; simpl.
  - intros [= <- <-]. auto.
  - destruct (rDef_exec def) as [[[ty name] count]|] eqn:E; [|discriminate].
    intros H Hk. eapply IH; [exact H|].
    apply obj_get_set_ne; [|exact Hk]. intros ->. eapply Hdef; eauto.
Qed.

Lemma forEach_layout (defs : list jsstring) (t t' : Z) (m m' : object) :
  _parseDefs_forEach defs t m = Ok (t', m') ->
  0 <= t -> t + sumZ (footprint <$> defs) <= 2 ^ 53 ->
  (∀ k d, obj_get m k = PDef d -> in_layout d t) ->
  ∀ k d, obj_get m' k = PDef d -> in_layout d t'.
Proof.
  revert t m. induction defs as [|def defs IH]; intros t m;
    cbn [_parseDefs_forEach].
  - intros [= <- <-]. auto.
  - destruct (rDef_exec def) as [[[ty name] count]|] eqn:E; [|discriminate].
    change (sumZ (footprint <$> def :: defs))
      with (footprint def + sumZ (footprint <$> defs)).
    destruct (footprint_exec _ _ _ _ E) as (-> & Hc & ->).
    pose proof (byteSize_pos ty) as Hb.
    pose proof (sumZ_footprint_nonneg defs) as Hs.
    intros H Ht Hfit Hm.
    destruct (total_step_exact t (count_of count) (byteSize ty)) as [Er Es];
      [lia..|].
    rewrite Es, Er in H.
    eapply IH; [exact H|nia|lia|].
    intros k d Hk. apply obj_get_set_PDef in Hk.
    destruct Hk as [[-> ->]|[_ Hk]].
    + unfold in_layout. simpl. lia.
    + apply Hm in Hk. unfold in_layout in *. nia.
Qed.

Lemma empty_object_no_entry (k : jsstring) (d : def) :
  obj_get empty_object k ≠ PDef d.
Proof.
  rewrite obj_get_PDef. unfold empty_object. simpl.
  case_bool_decide; [discriminate|]. rewrite lookup_empty. discriminate.
Qed.

Lemma forEach_Ok (defs : list jsstring) (t : Z) (m : object) :
  Forall matches_grammar defs ->
  ∃ t' m', _parseDefs_forEach defs t m = Ok (t', m').
Proof.
  intros HF. revert t m. induction HF as [|def defs Hdef _ IH]; intros t m.
  - simpl. eauto.
  - apply rDef_exec_grammar in Hdef. destruct Hdef as [[[ty name] count] E].
    simpl. rewrite E. apply IH.
Qed.

(** C1.  For every valid descriptor sequence whose footprints sum to at most
    2^53, [_parseDefs] returns, and assigns the entry of the descriptor at
    index [i] the offset that is the sum of the footprints (length times byte
    size) of the descriptors before it, in the order given and without
    padding: the entry is in the map once the first [i + 1] descriptors are
    processed, and in the final map unless a later descriptor declares the
    same name.  Hence for [i < j] the end of entry [i] is at most the offset
    of entry [j], with equality for [j = i + 1]; the byte ranges of distinct
    entries do not overlap; and the returned [totalBytes] is the sum of all
    footprints. *)
Theorem parseDefs_offsets (defs : list jsstring) :
  Forall matches_grammar defs ->
  sumZ (footprint <$> defs) <= 2 ^ 53 ->
  ∃ totalBytes defMap,
  _parseDefs empty_object defs = Ok (totalBytes, defMap) ∧
  totalBytes = sumZ (footprint <$> defs) ∧
  (∀ i def, defs !! i = Some def ->
     ∃ type name count defMap_i,
       let entry := {| def_type := type; def_offset := offset_at defs i;
                       def_length := count_of count |} in
       rDef_exec def = Some (type, name, count) ∧
       footprint def = count_of count * byteSize type ∧
       _parseDefs empty_object (take (S i) defs)
       = Ok (offset_at defs i + footprint def, defMap_i) ∧
       obj_get defMap_i name = PDef entry ∧
       ((∀ j def', (i < j)%nat -> defs !! j = Some def' ->
           ∀ ty c, rDef_exec def' ≠ Some (ty, name, c)) ->
        obj_get defMap name = PDef entry)) ∧
  (∀ i j def, (i < j)%nat -> defs !! i = Some def ->
     offset_at defs i + footprint def <= offset_at defs j ∧
     (j = S i -> offset_at defs i + footprint def = offset_at defs j)) ∧
  (∀ i j di dj x, i ≠ j -> defs !! i = Some di -> defs !! j = Some dj ->
     ¬ (offset_at defs i <= x < offset_at defs i + footprint di ∧
        offset_at defs j <= x < offset_at defs j + footprint dj)).
Proof.
  unfold _parseDefs. intros Hvalid Hfit.
  destruct (forEach_Ok defs 0 empty_object Hvalid)
    as (totalBytes & defMap & Hparse).
  exists totalBytes, defMap. split; [exact Hparse|].
  assert (Hmono : ∀ i j def, (i < j)%nat -> defs !! i = Some def ->
            offset_at defs i + footprint def <= offset_at defs j).
  { intros i j def Hij Hi. rewrite <- (offset_at_S _ _ _ Hi).
    apply offset_at_mono. lia. }
  assert (Hin : ∀ i, offset_at defs i <= 2 ^ 53).
  { intros i. rewrite <- offset_at_all in Hfit.
    destruct (Nat.le_gt_cases i (length defs)) as [Hi|Hi].
    - pose proof (offset_at_mono defs _ _ Hi). lia.
    - unfold offset_at in *. rewrite take_ge by lia.
      rewrite firstn_all in Hfit. exact Hfit. }
  split; [|split; [|split]].
  - apply forEach_total in Hparse; [lia|lia|lia].
  - intros i def Hi.
    pose proof (take_drop_middle _ _ _ Hi) as Hsplit.
    rewrite <- Hsplit in Hparse.
    rewrite forEach_app in Hparse.
    destruct (_parseDefs_forEach (take i defs) 0 empty_object)
      as [[t1 m1]| |] eqn:E1; try discriminate.
    cbn [mbind outcome_bind] in Hparse.
    pose proof (forEach_total _ _ _ _ _ (Z.le_refl 0) (Hin i) E1) as Ht1.
    rewrite Z.add_0_l in Ht1. fold (offset_at defs i) in Ht1. subst t1.
    cbn [_parseDefs_forEach] in Hparse.
    destruct (rDef_exec def) as [[[ty name] count]|] eqn:E; [|discriminate].
    destruct (footprint_exec _ _ _ _ E) as (Hfp & Hc & Hlen).
    rewrite Hlen in Hparse.
    destruct (total_step_exact (offset_at defs i) (count_of count)
                (byteSize ty)) as [Er Hstep];
      [apply (offset_at_mono defs 0 i); lia|exact Hc|apply byteSize_pos| |].
    { rewrite <- Hfp, <- (offset_at_S _ _ _ Hi). apply Hin. }
    rewrite <- Hfp in Hstep. rewrite Hstep, Er in Hparse.
    exists ty, name, count,
      (obj_set m1 name
         (Def ty (offset_at defs i) (round_double (count_of count)))).
    repeat split; auto.
    + rewrite (take_S_r _ _ _ Hi), forEach_app, E1.
      cbn [mbind outcome_bind _parseDefs_forEach]. rewrite E.
      rewrite Hlen, Hstep. reflexivity.
    + rewrite Er. apply obj_get_set_eq.
    + intros Hlater. eapply forEach_keep; [exact Hparse|apply obj_get_set_eq|].
      apply Forall_lookup. intros j def' Hj ty' c'.
      apply (Hlater (S i + j)%nat def'); [lia|].
      rewrite lookup_drop in Hj. exact Hj.
  - intros i j def Hij Hi. split; [eauto|].
    intros ->. symmetry. apply offset_at_S. exact Hi.
  - intros i j di dj x Hne Hi Hj [H1 H2].
    destruct (Nat.lt_total i j) as [Hlt|[->|Hlt]]; [|done|].
    + pose proof (Hmono i j di Hlt Hi). lia.
    + pose proof (Hmono j i dj Hlt Hj). lia.
Qed.

Lemma packet_valid : Forall matches_grammar packet.
Proof.
  repeat constructor; apply rDef_exec_grammar; vm_compute; eauto.
Qed.

Lemma parseDefs_offsets_witness :
  Forall matches_grammar packet ∧ sumZ (footprint <$> packet) <= 2 ^ 53 ∧
  ∃ totalBytes defMap,
    _parseDefs empty_object packet = Ok (totalBytes, defMap) ∧
    totalBytes = 22 ∧
    obj_get defMap (str "method")
    = PDef {| def_type := cstring; def_offset := 6; def_length := 11 |}.
Proof.
  assert (Hfit : sumZ (footprint <$> packet) <= 2 ^ 53)
    by (vm_compute; discriminate).
  split; [exact packet_valid|]. split; [exact Hfit|].
  destruct (parseDefs_offsets packet packet_valid Hfit)
    as (totalBytes & defMap & Hparse & Htotal & Hentry & _).
  exists totalBytes, defMap. split; [exact Hparse|].
  split; [rewrite Htotal; reflexivity|].
  destruct (Hentry 2%nat (str "cstring method[11]") eq_refl)
    as (type & name & count & defMap_i & Hexec & _ & _ & _ & Hfinal).
  vm_compute in Hexec. injection Hexec as <- <- <-.
  apply Hfinal. intros j def' Hj Hdef' ty c.
  do 3 (destruct j as [|j]; [lia|]).
  do 2 (destruct j as [|j];
        [injection Hdef' as <-; vm_compute; discriminate|]).
  discriminate.
Defined.

(** Beyond 2^53 the sums of the compiler are rounded.  In [oversized] the
    [cstring] of 2^53 elements after one byte ends at 2^53 + 1, which is no
    double: the total stays at 2^53, the next entry is given the offset
    2^53, inside the [cstring], and the byte it adds to the total is lost
    again. *)
Lemma parseDefs_offsets_counterexample :
  Forall matches_grammar oversized ∧
  ∃ defMap,
    _parseDefs empty_object oversized = Ok (2 ^ 53, defMap) ∧
    sumZ (footprint <$> oversized) = 2 ^ 53 + 2 ∧
    obj_get defMap (str "b")
    = PDef {| def_type := cstring; def_offset := 1; def_length := 2 ^ 53 |} ∧
    obj_get defMap (str "c")
    = PDef {| def_type := uint8; def_offset := 2 ^ 53; def_length := 1 |} ∧
    offset_at oversized 2 = 2 ^ 53 + 1 ∧
    1 <= 2 ^ 53 < 1 + 2 ^ 53 * byteSize cstring.
Proof.
  split.
  { repeat constructor; apply rDef_exec_grammar; vm_compute; eauto. }
  eexists. repeat split; try (vm_compute; reflexivity).
  vm_compute. discriminate.
Qed.

Lemma forEach_Throw (pre post : list jsstring) (def : jsstring) (t : Z)
    (m : object) :
  Forall matches_grammar pre -> ¬ matches_grammar def ->
  _parseDefs_forEach (pre ++ def :: post) t m
  = Throw (Error (str "Invalid Struct Definition: " ++ def)).
Proof.
  intros Hpre Hdef. rewrite forEach_app.
  destruct (forEach_Ok pre t m Hpre) as (t' & m' & ->).
  apply rDef_exec_None in Hdef. cbn [mbind outcome_bind _parseDefs_forEach].
  rewrite Hdef. reflexivity.
Qed.

Lemma first_malformed (defs : list jsstring) :
  Exists (λ def, ¬ matches_grammar def) defs ->
  ∃ pre def post,
    defs = pre ++ def :: post ∧ Forall matches_grammar pre ∧
    ¬ matches_grammar def.
Proof.
  induction defs as [|d defs IH]; intros HE; [by apply Exists_nil in HE|].
  destruct (rDef_exec d) as [r|] eqn:E.
  - assert (Hd : matches_grammar d) by (apply rDef_exec_grammar; eauto).
    apply Exists_cons in HE. destruct HE as [HE|HE]; [contradiction|].
    destruct (IH HE) as (pre & def & post & -> & Hpre & Hdef).
    exists (d :: pre), def, post. repeat split; auto.
  - exists [], d, defs. repeat split; auto. by apply rDef_exec_None.
Qed.

(** C6.  A descriptor sequence that contains a string outside the grammar
    is rejected: with [def] its first such string, [_parseDefs] and the
    constructor throw the Error whose message ends with [def], whatever
    follows [def] in the sequence, whatever buffer and flag are passed; the
    outcome carries no layout and no instance. *)
Theorem malformed_descriptor (defs : list jsstring) :
  Exists (λ def, ¬ matches_grammar def) defs ->
  ∃ pre def post,
    defs = pre ++ def :: post ∧ Forall matches_grammar pre ∧
    ¬ matches_grammar def ∧
    ∀ buffer isLittleEndian post',
      _parseDefs empty_object defs
      = Throw (Error (str "Invalid Struct Definition: " ++ def)) ∧
      Struct defs buffer isLittleEndian
      = Throw (Error (str "Invalid Struct Definition: " ++ def)) ∧
      Struct (pre ++ def :: post') buffer isLittleEndian
      = Throw (Error (str "Invalid Struct Definition: " ++ def)).
Proof.
  intros HE. destruct (first_malformed defs HE) as (pre & def & post & -> & Hpre & Hdef).
  exists pre, def, post. repeat split; auto;
    unfold Struct, _parseDefs; rewrite forEach_Throw by done; reflexivity.
Qed.

Lemma malformed_descriptor_witness :
  let defs := [str "uint8 a"; str "int24 weird"; str "uint8 b"] in
  Exists (λ def, ¬ matches_grammar def) defs ∧
  ∃ pre def post,
    defs = pre ++ def :: post ∧ Forall matches_grammar pre ∧
    ¬ matches_grammar def ∧
    ∀ buffer isLittleEndian post',
      _parseDefs empty_object defs
      = Throw (Error (str "Invalid Struct Definition: " ++ def)) ∧
      Struct defs buffer isLittleEndian
      = Throw (Error (str "Invalid Struct Definition: " ++ def)) ∧
      Struct (pre ++ def :: post') buffer isLittleEndian
      = Throw (Error (str "Invalid Struct Definition: " ++ def)).
Proof.
  assert (H : Exists (λ def, ¬ matches_grammar def)
                [str "uint8 a"; str "int24 weird"; str "uint8 b"]).
  { apply Exists_cons_tl, Exists_cons_hd, rDef_exec_None. reflexivity. }
  split; [exact H|]. exact (malformed_descriptor _ H).
Defined.

(** C10.  A descriptor with an explicit count of zero compiles, with the
    sequence around it, and counts as one element: the layout is the one of
    the same sequence with the count written as 1 or left out, the entry has
    length 1 at the running offset, and the byte size of its type is added
    to [totalBytes] as Numbers are added.  When the footprints of the
    sequence sum to at most 2^53 that addition is exact: the entry starts
    at the sum of the footprints before it and [totalBytes] grows by its
    byte size. *)
Theorem explicit_zero_count (t : type) (name zeros : jsstring)
    (pre post : list jsstring) :
  name ≠ [] -> Forall (λ c, is_word c = true) name ->
  zeros ≠ [] -> Forall (λ c, c = 48%N) zeros ->
  Forall matches_grammar pre -> Forall matches_grammar post ->
  let def := descriptor t name zeros in
  ∃ totalBytes defMap offset defMap_pre defMap_i,
    _parseDefs empty_object (pre ++ def :: post) = Ok (totalBytes, defMap) ∧
    _parseDefs empty_object (pre ++ descriptor t name (str "1") :: post)
    = Ok (totalBytes, defMap) ∧
    _parseDefs empty_object (pre ++ descriptor t name [] :: post)
    = Ok (totalBytes, defMap) ∧
    footprint def = byteSize t ∧
    _parseDefs empty_object pre = Ok (offset, defMap_pre) ∧
    _parseDefs empty_object (pre ++ [def])
    = Ok (Number_add offset (byteSize t), defMap_i) ∧
    obj_get defMap_i name
    = PDef {| def_type := t; def_offset := offset; def_length := 1 |} ∧
    (sumZ (footprint <$> pre) + byteSize t + sumZ (footprint <$> post)
     <= 2 ^ 53 ->
     offset = sumZ (footprint <$> pre) ∧
     Number_add offset (byteSize t) = sumZ (footprint <$> pre) + byteSize t ∧
     totalBytes
     = sumZ (footprint <$> pre) + byteSize t + sumZ (footprint <$> post)).
Proof.
  intros Hn Hw Hz Hzeros Hpre Hpost def.
  assert (Hdig : Forall (λ c, is_digit c = true) zeros).
  { eapply Forall_impl; [exact Hzeros|]. by intros c ->. }
  assert (E : rDef_exec def = Some (t, name, zeros))
    by (apply rDef_exec_complete; done).
  assert (E1 : rDef_exec (descriptor t name (str "1")) = Some (t, name, str "1")).
  { apply rDef_exec_complete; try done. by repeat constructor. }
  assert (E0 : rDef_exec (descriptor t name []) = Some (t, name, []))
    by (apply rDef_exec_complete; done).
  assert (Hfp : footprint def = byteSize t).
  { unfold footprint. rewrite E, count_of_zeros by done. lia. }
  assert (Hmul : Number_mul 1 (byteSize t) = byteSize t)
    by (destruct t; reflexivity).
  unfold _parseDefs.
  destruct (forEach_Ok pre 0 empty_object Hpre) as (t1 & m1 & Epre).
  set (entry := {| def_type := t; def_offset := t1; def_length := 1 |}).
  destruct (forEach_Ok post (Number_add t1 (byteSize t))
              (obj_set m1 name entry) Hpost) as (t2 & m2 & E2).
  assert (Hstep : ∀ d count rest,
    rDef_exec d = Some (t, name, count) -> count_of count = 1 ->
    _parseDefs_forEach (pre ++ d :: rest) 0 empty_object
    = _parseDefs_forEach rest (Number_add t1 (byteSize t))
        (obj_set m1 name entry)).
  { intros d count rest Ed Hcount. rewrite forEach_app, Epre.
    cbn [mbind outcome_bind _parseDefs_forEach]. rewrite Ed.
    destruct (footprint_exec _ _ _ _ Ed) as (_ & _ & ->).
    rewrite Hcount. change (round_double 1) with 1. rewrite Hmul.
    reflexivity. }
  exists t2, m2, t1, m1, (obj_set m1 name entry).
  split; [rewrite (Hstep _ _ _ E) by (by apply count_of_zeros); exact E2|].
  split; [rewrite (Hstep _ _ _ E1) by reflexivity; exact E2|].
  split; [rewrite (Hstep _ _ _ E0) by reflexivity; exact E2|].
  split; [exact Hfp|]. split; [exact Epre|].
  split; [rewrite (Hstep _ _ _ E) by (by apply count_of_zeros); reflexivity|].
  split; [apply obj_get_set_eq|].
  intros Hfit.
  pose proof (sumZ_footprint_nonneg pre) as Hs1.
  pose proof (sumZ_footprint_nonneg post) as Hs2.
  pose proof (byteSize_pos t) as Hb.
  assert (Ht1 : t1 = 0 + sumZ (footprint <$> pre))
    by (apply forEach_total in Epre; [exact Epre|lia|lia]).
  rewrite Z.add_0_l in Ht1. subst t1.
  assert (Hadd : Number_add (sumZ (footprint <$> pre)) (byteSize t)
                 = sumZ (footprint <$> pre) + byteSize t)
    by (unfold Number_add; apply round_double_exact; lia).
  split; [reflexivity|]. split; [exact Hadd|].
  rewrite Hadd in E2. apply forEach_total in E2; lia.
Qed.

Lemma explicit_zero_count_witness :
  ∃ totalBytes defMap,
    _parseDefs empty_object [str "uint32 w"; str "uint16 x[0]"; str "uint8 y"]
    = Ok (totalBytes, defMap) ∧
    totalBytes = 7 ∧
    obj_get defMap (str "x")
    = PDef {| def_type := uint16; def_offset := 4; def_length := 1 |}.
Proof.
  destruct (explicit_zero_count uint16 (str "x") (str "0") [str "uint32 w"]
              [str "uint8 y"])
    as (totalBytes & defMap & offset & defMap_pre & defMap_i
        & Hparse & _ & _ & _ & _ & _ & _ & Hexact).
  - done.
  - repeat constructor.
  - done.
  - repeat constructor.
  - constructor; [|constructor]. apply rDef_exec_grammar. vm_compute. eauto.
  - constructor; [|constructor]. apply rDef_exec_grammar. vm_compute. eauto.
  - exists totalBytes, defMap. split; [exact Hparse|].
    destruct Hexact as (_ & _ & Htotal); [vm_compute; discriminate|].
    split; [rewrite Htotal; reflexivity|].
    revert Hparse. vm_compute. intros [= _ <-]. reflexivity.
Defined.

(** Past 2^53 the byte of an entry with count zero is added to the total
    and lost in the rounding: after the [cstring] of 2^53 elements the
    entry [x] is given the offset 2^53 and leaves [totalBytes] at 2^53, and
    the entry [y] after it is given the same offset. *)
Lemma explicit_zero_count_counterexample :
  let pre := [str "cstring b[9007199254740992]"] in
  Forall matches_grammar pre ∧
  ∃ defMap_pre defMap,
    _parseDefs empty_object pre = Ok (2 ^ 53, defMap_pre) ∧
    _parseDefs empty_object (pre ++ [str "uint8 x[0]"; str "uint8 y"])
    = Ok (2 ^ 53, defMap) ∧
    obj_get defMap (str "x")
    = PDef {| def_type := uint8; def_offset := 2 ^ 53; def_length := 1 |} ∧
    obj_get defMap (str "y")
    = PDef {| def_type := uint8; def_offset := 2 ^ 53; def_length := 1 |}.
Proof.
  split.
  { repeat constructor; apply rDef_exec_grammar; vm_compute; eauto. }
  eexists _, _. repeat split; vm_compute; reflexivity.
Qed.

(** ** Instances *)

Lemma length_SetViewValue (b b' : ArrayBuffer) (offset : Z) (size : nat) (v : Z)
    (le : option bool) :
  SetViewValue b offset size v le = Ok b' -> byteLength b' = byteLength b.
Proof.
  unfold SetViewValue, in_bounds, byteLength.
  destruct (0 <=? offset) eqn:E1; [|discriminate].
  destruct (offset + Z.of_nat size <=? Z.of_nat (length b)) eqn:E2;
    [|discriminate].
  apply Z.leb_le in E1, E2. intros [= <-].
  rewrite !length_app, length_take, length_drop, length_NumericToRawBytes. lia.
Qed.

Lemma SetViewValue_Ok (b : ArrayBuffer) (offset : Z) (size : nat) (v : Z)
    (le : option bool) :
  0 <= offset -> offset + Z.of_nat size <= byteLength b ->
  ∃ pre mid post,
    b = pre ++ mid ++ post ∧ Z.of_nat (length pre) = offset ∧ length mid = size ∧
    pre = take (Z.to_nat offset) b ∧
    post = drop (Z.to_nat offset + size) b ∧
    SetViewValue b offset size v le
    = Ok (pre ++ NumericToRawBytes size v (ToBoolean le) ++ post).
Proof.
  intros Ho Hb.
  destruct (buffer_split b offset (Z.of_nat size) Ho ltac:(lia) Hb)
    as (pre & mid & post & Hsplit & Hpre & Hmid & Epre & _ & Epost).
  exists pre, mid, post. rewrite Nat2Z.id in Epost.
  apply Nat2Z.inj in Hmid. repeat split; auto.
  rewrite Hsplit at 1. rewrite <- Hpre, <- Hmid. apply SetViewValue_app.
Qed.

Lemma cstring_setter_loop_length (n : nat) (s : jsstring) (i offset : Z)
    (b b' : ArrayBuffer) (r : outcome Z) :
  cstring_setter_loop n s i offset b = (r, b') -> byteLength b' = byteLength b.
Proof.
  revert i offset b. induction n as [|n IH]; intros i offset b; simpl.
  - intros [= _ <-]. reflexivity.
  - unfold setUint8.
    destruct (SetViewValue b offset 1 (charCodeAt s i) None) as [b1| |] eqn:E.
    + intros H. apply IH in H. rewrite H. eapply length_SetViewValue, E.
    + intros [= _ <-]. reflexivity.
    + intros [= _ <-]. reflexivity.
Qed.

Lemma store_preserves (this this' : instance) (w : outcome ArrayBuffer)
    (r : outcome ()) :
  (∀ b, w = Ok b -> byteLength b = getLength this) ->
  store this w = (r, this') ->
  _defMap this' = _defMap this ∧ LITTE_ENDIAN this' = LITTE_ENDIAN this ∧
  getLength this' = getLength this.
Proof.
  intros Hw. unfold store. destruct w as [b| |]; intros [= _ <-]; auto.
  repeat split. simpl. unfold getLength. simpl. auto.
Qed.

Section SetPreserves.

Variable StringToNumber : jsstring -> Z.

Lemma setter_preserves (t : type) (this this' : instance) (v : value)
    (offset length : Z) (r : outcome ()) :
  setter StringToNumber t this v offset length = (r, this') ->
  _defMap this' = _defMap this ∧ LITTE_ENDIAN this' = LITTE_ENDIAN this ∧
  getLength this' = getLength this.
Proof.
  destruct t; simpl;
    try (apply store_preserves; intros b Hb;
         eapply length_SetViewValue, Hb).
  destruct (cstring_setter_loop _ _ 0 offset (_buffer this)) as [ro b1] eqn:E.
  apply cstring_setter_loop_length in E.
  destruct ro as [o| |].
  - intros H. apply store_preserves in H.
    + unfold getLength in *. simpl in *. destruct H as (? & ? & ->). auto.
    + intros b Hb. eapply length_SetViewValue, Hb.
  - intros [= _ <-]. unfold getLength. simpl. auto.
  - intros [= _ <-]. unfold getLength. simpl. auto.
Qed.

Lemma set_preserves (this this' : instance) (name : jsstring) (v : value)
    (r : outcome ()) :
  set StringToNumber this name v = (r, this') ->
  _defMap this' = _defMap this ∧ LITTE_ENDIAN this' = LITTE_ENDIAN this ∧
  getLength this' = getLength this.
Proof.
  unfold set. destruct (_getDefByName this name) as [[]| |];
    try (intros [= _ <-]; by auto).
  apply setter_preserves.
Qed.

Lemma Struct_Ok (defs : list jsstring) (buffer : option ArrayBuffer)
    (le : option bool) (this : instance) :
  Struct defs buffer le = Ok this ->
  ∃ totalBytes defMap,
    _parseDefs empty_object defs = Ok (totalBytes, defMap) ∧
    _defMap this = defMap ∧ LITTE_ENDIAN this = le ∧
    match buffer with
    | Some b => _buffer this = b
    | None => getLength this = totalBytes
              ∧ _buffer this = replicate (Z.to_nat totalBytes) x00
    end.
Proof.
  unfold Struct.
  destruct (_parseDefs empty_object defs) as [[t m]| |]; try discriminate.
  cbn [mbind outcome_bind]. intros H. exists t, m. split; [reflexivity|].
  revert H. destruct buffer as [b|]; cbn [mbind outcome_bind].
  - intros [= <-]. auto.
  - unfold ArrayBuffer_new.
    destruct ((t <? 0) || (MAX_BYTE_LENGTH <? t)) eqn:E; [discriminate|].
    cbn [mbind outcome_bind]. intros [= <-]. simpl.
    apply orb_false_elim in E. destruct E as [E _]. apply Z.ltb_ge in E.
    unfold getLength, byteLength. simpl. rewrite length_replicate.
    repeat split. lia.
Qed.

(** The constructor allocates only what an ArrayBuffer can hold. *)
Lemma Struct_allocated (defs : list jsstring) (le : option bool)
    (this : instance) :
  Struct defs None le = Ok this -> getLength this <= MAX_BYTE_LENGTH.
Proof.
  unfold Struct.
  destruct (_parseDefs empty_object defs) as [[t m]| |]; try discriminate.
  cbn [mbind outcome_bind]. unfold ArrayBuffer_new.
  destruct ((t <? 0) || (MAX_BYTE_LENGTH <? t)) eqn:E; [discriminate|].
  cbn [mbind outcome_bind]. intros [= <-].
  apply orb_false_elim in E. destruct E as [E1 E2].
  apply Z.ltb_ge in E1, E2.
  unfold getLength, byteLength. simpl. rewrite length_replicate. lia.
Qed.

(** A layout of at most [MAX_BYTE_LENGTH] bytes is the exact one. *)
Lemma parseDefs_exact (defs : list jsstring) (t : Z) (m : object) :
  _parseDefs empty_object defs = Ok (t, m) -> t <= MAX_BYTE_LENGTH ->
  sumZ (footprint <$> defs) = t.
Proof.
  intros H Ht. apply forEach_below in H; unfold MAX_BYTE_LENGTH in Ht; lia.
Qed.

Lemma parseDefs_layout (defs : list jsstring) (t : Z) (m : object) :
  _parseDefs empty_object defs = Ok (t, m) -> t <= MAX_BYTE_LENGTH ->
  ∀ name d, obj_get m name = PDef d -> in_layout d t.
Proof.
  intros H Ht. pose proof (parseDefs_exact _ _ _ H Ht) as Hsum.
  unfold MAX_BYTE_LENGTH in Ht.
  eapply forEach_layout; [exact H|lia|lia|].
  intros k d Hk. by apply empty_object_no_entry in Hk.
Qed.

Lemma in_layout_le (d : def) (t t' : Z) :
  in_layout d t -> t <= t' -> in_layout d t'.
Proof. unfold in_layout. lia. Qed.

Lemma record_instance_well_sized (this : instance) :
  record_instance StringToNumber this -> well_sized this.
Proof.
  induction 1 as [defs le this H|defs b le t m this Hp Hb Hmax H
                  |this name v r this' _ IH Hset].
  - pose proof (Struct_allocated _ _ _ H) as Hmax.
    apply Struct_Ok in H. destruct H as (t & m & Hp & <- & _ & <- & _).
    intros name d Hd. eapply parseDefs_layout; eauto.
  - apply Struct_Ok in H. destruct H as (t' & m' & Hp' & <- & _ & Hbuf).
    rewrite Hp in Hp'. injection Hp' as -> ->.
    intros name d Hd. unfold getLength. rewrite Hbuf.
    eapply in_layout_le; [|exact Hb]. eapply parseDefs_layout; eauto. lia.
  - apply set_preserves in Hset. destruct Hset as (Hm & _ & Hl).
    intros name' d. rewrite Hm, Hl. apply IH.
Qed.

End SetPreserves.

(** ** Integer fields *)

Lemma getDefByName_entry (this : instance) (name : jsstring) (d : def) :
  obj_get (_defMap this) name = PDef d ->
  _getDefByName this name = Ok (PDef d).
Proof. unfold _getDefByName. intros ->. reflexivity. Qed.

Lemma le_decode_singleton (b : byte) (l : bool) :
  RawBytesToNumeric [b] l = Z_of_byte b.
Proof. unfold RawBytesToNumeric. destruct l; simpl; lia. Qed.

Lemma getUint8_app (pre post : list byte) (b : byte) :
  getUint8 (pre ++ b :: post) (Z.of_nat (length pre)) = Ok (Z_of_byte b).
Proof.
  unfold getUint8. rewrite <- (le_decode_singleton b (ToBoolean None)).
  exact (GetViewValue_app pre [b] post None).
Qed.

Lemma setUint8_app (pre post : list byte) (b : byte) (v : Z) :
  setUint8 (pre ++ b :: post) (Z.of_nat (length pre)) v
  = Ok (pre ++ byte_of_Z v :: post).
Proof.
  exact (SetViewValue_app pre [b] post v None).
Qed.

Lemma eachByte_loop_fold {A} (this : instance) (pre rest : list byte)
    (callback : Z -> Z -> A -> outcome A) (acc : A) :
  _buffer this = pre ++ rest ->
  eachByte_loop (length rest) this (Z.of_nat (length pre)) callback acc
  = fold_bytes callback (Z.of_nat (length pre)) rest acc.
Proof.
  revert pre acc. induction rest as [|b rest IH]; intros pre acc Hb;
    [reflexivity|].
  cbn [length eachByte_loop fold_bytes]. rewrite Hb, getUint8_app.
  cbn [mbind outcome_bind]. destruct (callback _ _ acc) as [acc'| |];
    cbn [mbind outcome_bind]; try reflexivity.
  replace (Z.of_nat (length pre) + 1) with (Z.of_nat (length (pre ++ [b])))
    by (rewrite length_app; simpl; lia).
  apply IH. rewrite Hb, <- app_assoc. reflexivity.
Qed.

Lemma eachByte_fold {A} (this : instance)
    (callback : Z -> Z -> A -> outcome A) (acc : A) :
  eachByte this callback acc = fold_bytes callback 0 (_buffer this) acc.
Proof.
  unfold eachByte, getLength, byteLength. rewrite Nat2Z.id.
  apply (eachByte_loop_fold this [] (_buffer this)). reflexivity.
Qed.

Lemma fold_bytes_collect (bs : list byte) (i : Z) (acc : list Z) :
  fold_bytes (λ v _ acc, Ok (acc ++ [v])) i bs acc
  = Ok (acc ++ (Z_of_byte <$> bs)).
Proof.
  revert i acc. induction bs as [|b bs IH]; intros i acc; simpl.
  - rewrite app_nil_r. reflexivity.
  - cbn [mbind outcome_bind]. rewrite IH, <- app_assoc. reflexivity.
Qed.

Section IntegerFields.
Variable StringToNumber : jsstring -> Z.

Lemma setter_integer (t : type) (this : instance) (v : value)
    (offset length : Z) :
  t ≠ cstring ->
  setter StringToNumber t this v offset length
  = store this (SetViewValue (_buffer this) offset (width t)
                  (ToNumber StringToNumber v) (order t this)).
Proof. destruct t; done. Qed.

Lemma getter_integer (t : type) (this : instance) (offset length : Z) :
  t ≠ cstring ->
  getter t this offset length
  = VNumber <$> GetViewValue (_buffer this) offset (width t) (order t this).
Proof. destruct t; done. Qed.

Lemma integer_set_get (this : instance) (name : jsstring) (d : def) (v : Z) :
  obj_get (_defMap this) name = PDef d ->
  def_type d ≠ cstring ->
  in_layout d (getLength this) ->
  ∃ pre mid post,
    _buffer this = pre ++ mid ++ post ∧
    Z.of_nat (length pre) = def_offset d ∧
    length mid = width (def_type d) ∧
    let bytes := NumericToRawBytes (width (def_type d)) v
                   (ToBoolean (order (def_type d) this)) in
    let this' := with_buffer this (pre ++ bytes ++ post) in
    set StringToNumber this name (VNumber v) = (Ok (), this') ∧
    get this' name = Ok (VNumber (v mod 256 ^ byteSize (def_type d))).
Proof.
  intros Hd Ht (Ho & Hl & Hfit).
  assert (Hw : Z.of_nat (width (def_type d)) = byteSize (def_type d)).
  { unfold width. pose proof (byteSize_pos (def_type d)). lia. }
  destruct (SetViewValue_Ok (_buffer this) (def_offset d) (width (def_type d))
              v (order (def_type d) this) Ho)
    as (pre & mid & post & Hsplit & Hpre & Hmid & _ & _ & Hset).
  { unfold getLength in Hfit. rewrite Hw. pose proof (byteSize_pos (def_type d)). nia. }
  set (bytes := NumericToRawBytes _ _ _) in *.
  exists pre, mid, post. do 3 (split; [done|]).
  cbv zeta. fold bytes.
  set (this' := with_buffer this (pre ++ bytes ++ post)). split.
  - unfold set. rewrite (getDefByName_entry _ _ _ Hd).
    rewrite setter_integer by done. simpl ToNumber. rewrite Hset. reflexivity.
  - unfold get. rewrite (getDefByName_entry this' name d Hd).
    cbn [mbind outcome_bind]. rewrite getter_integer by done.
    replace (order (def_type d) this') with (order (def_type d) this)
      by (by destruct (def_type d)).
    assert (Hlen : length bytes = width (def_type d))
      by apply length_NumericToRawBytes.
    subst this'. cbn [_buffer with_buffer]. rewrite <- Hpre, <- Hlen.
    rewrite GetViewValue_app. subst bytes.
    rewrite RawBytes_roundtrip, Hw. reflexivity.
Qed.

(** C2.  For every integer field of an instance (8, 16 or 32 bits), every
    value [v] of that width and either byte order of the instance,
    [set(name, v)] returns and [get(name)] then returns [v]. *)
Theorem integer_roundtrip (this : instance) (name : jsstring) (d : def)
    (v : Z) :
  record_instance StringToNumber this ->
  obj_get (_defMap this) name = PDef d ->
  def_type d ≠ cstring ->
  0 <= v < 2 ^ (8 * byteSize (def_type d)) ->
  ∃ this',
    set StringToNumber this name (VNumber v) = (Ok (), this') ∧
    get this' name = Ok (VNumber v).
Proof.
  intros Hri Hd Ht Hv.
  pose proof (record_instance_well_sized _ _ Hri name d Hd) as Hlay.
  destruct (integer_set_get this name d v Hd Ht Hlay)
    as (pre & mid & post & _ & _ & _ & Hset & Hget).
  eexists. split; [exact Hset|]. rewrite Hget. do 2 f_equal.
  apply Z.mod_small.
  replace (256 ^ byteSize (def_type d)) with (2 ^ (8 * byteSize (def_type d)));
    [exact Hv|].
  destruct (def_type d); reflexivity.
Qed.

End IntegerFields.

Lemma integer_roundtrip_witness :
  ∃ this this',
    Struct packet None (Some true) = Ok this ∧
    set (λ _, 0) this (str "statusCode") (VNumber 4294967295)
    = (Ok (), this') ∧
    get this' (str "statusCode") = Ok (VNumber 4294967295).
Proof.
  eexists.
  assert (Hnew : Struct packet None (Some true) = Ok ?[this])
    by (vm_compute; reflexivity).
  destruct (integer_roundtrip (λ _, 0) _ (str "statusCode")
              {| def_type := uint32; def_offset := 2; def_length := 1 |}
              4294967295 (ri_new _ _ _ _ Hnew))
    as (this' & Hset & Hget).
  - vm_compute. reflexivity.
  - discriminate.
  - simpl. lia.
  - exists this'. auto.
Defined.

(** ** String fields *)

Lemma charCodeAt_lookup (s : jsstring) (i : nat) (c : N) :
  s !! i = Some c -> charCodeAt s (Z.of_nat i) = Z.of_N c.
Proof. unfold charCodeAt. rewrite Nat2Z.id. intros ->. reflexivity. Qed.

Lemma cstring_setter_loop_app (s : jsstring) (i : nat)
    (pre mid post : list byte) :
  (i + length mid <= length s)%nat ->
  cstring_setter_loop (length mid) s (Z.of_nat i) (Z.of_nat (length pre))
    (pre ++ mid ++ post)
  = (Ok (Z.of_nat (length pre) + Z.of_nat (length mid)),
     pre ++ (byte_of_code <$> take (length mid) (drop i s)) ++ post).
Proof.
  revert i pre. induction mid as [|m mid IH]; intros i pre Hlen.
  - simpl. rewrite Z.add_0_r. reflexivity.
  - cbn [length cstring_setter_loop] in *.
    destruct (lookup_lt_is_Some_2 s i ltac:(lia)) as [c Hc].
    rewrite (charCodeAt_lookup _ _ _ Hc).
    change (pre ++ (m :: mid) ++ post) with (pre ++ m :: (mid ++ post)).
    rewrite setUint8_app.
    replace (pre ++ byte_of_Z (Z.of_N c) :: mid ++ post)
      with ((pre ++ [byte_of_code c]) ++ mid ++ post)
      by (rewrite <- app_assoc; reflexivity).
    replace (Z.of_nat (length pre) + 1)
      with (Z.of_nat (length (pre ++ [byte_of_code c])))
      by (rewrite length_app; simpl; lia).
    replace (Z.of_nat i + 1) with (Z.of_nat (S i)) by lia.
    rewrite IH by lia.
    rewrite (drop_S _ _ _ Hc). cbn [take fmap list_fmap].
    rewrite length_app, <- !app_assoc. simpl. do 2 f_equal. lia.
Qed.

Lemma cstring_getter_loop_app (pre mid post : list byte) (acc : jsstring) :
  cstring_getter_loop (length mid) (pre ++ mid ++ post)
    (Z.of_nat (length pre)) acc
  = Ok (acc ++ (Byte.to_N <$> until_zero mid)).
Proof.
  revert pre acc. induction mid as [|m mid IH]; intros pre acc.
  - simpl. rewrite app_nil_r. reflexivity.
  - cbn [length cstring_getter_loop until_zero].
    change (pre ++ (m :: mid) ++ post) with (pre ++ m :: (mid ++ post)).
    rewrite getUint8_app. cbn [mbind outcome_bind].
    destruct (Z_of_byte m =? 0); [by rewrite app_nil_r|].
    replace (pre ++ m :: mid ++ post) with ((pre ++ [m]) ++ mid ++ post)
      by (rewrite <- app_assoc; reflexivity).
    replace (Z.of_nat (length pre) + 1)
      with (Z.of_nat (length (pre ++ [m])))
      by (rewrite length_app; simpl; lia).
    rewrite IH. unfold Z_of_byte. rewrite N2Z.id.
    rewrite <- app_assoc. reflexivity.
Qed.

Lemma until_zero_all (bs : list byte) :
  Forall (λ b, Z_of_byte b ≠ 0) bs -> until_zero bs = bs.
Proof.
  induction 1 as [|b bs Hb _ IH]; [reflexivity|]. simpl.
  destruct (Z.eqb_spec (Z_of_byte b) 0); [contradiction|]. by rewrite IH.
Qed.

(** The getter on any instance whose buffer holds the field. *)
Lemma cstring_get_in_bounds (this : instance) (name : jsstring) (d : def) :
  obj_get (_defMap this) name = PDef d ->
  def_type d = cstring ->
  0 <= def_offset d -> 0 <= def_length d ->
  def_offset d + def_length d <= getLength this ->
  get this name
  = Ok (VString (Byte.to_N <$>
          until_zero (take (Z.to_nat (def_length d))
                        (drop (Z.to_nat (def_offset d)) (_buffer this))))).
Proof.
  intros Hd Ht Ho Hl Hfit. unfold get.
  rewrite (getDefByName_entry _ _ _ Hd). cbn [mbind outcome_bind].
  rewrite Ht. cbn [getter].
  destruct (buffer_split (_buffer this) (def_offset d) (def_length d) Ho Hl Hfit)
    as (pre & mid & post & Hsplit & Hpre & Hmid & _ & <- & _).
  rewrite Hsplit at 1. rewrite <- Hpre, <- Hmid, Nat2Z.id.
  rewrite cstring_getter_loop_app. reflexivity.
Qed.

Section StringFields.
Variable StringToNumber : jsstring -> Z.

(** C4.  [get] on a [cstring] field of length [L] returns the code points
    of the bytes of the field before its first zero byte, and of all [L]
    bytes when the field holds no zero byte.  It reads no byte past
    [offset + L - 1]: the result is a function of the [L] bytes of the
    field, and is the same on the buffer cut off after the field, where
    any further read would throw a RangeError. *)
Theorem cstring_get (this : instance) (name : jsstring) (d : def) :
  record_instance StringToNumber this ->
  obj_get (_defMap this) name = PDef d ->
  def_type d = cstring ->
  let offset := Z.to_nat (def_offset d) in
  let L := Z.to_nat (def_length d) in
  let field := take L (drop offset (_buffer this)) in
  Z.of_nat (length field) = def_length d ∧
  get this name = Ok (VString (Byte.to_N <$> until_zero field)) ∧
  get (with_buffer this (take (offset + L) (_buffer this))) name
  = get this name ∧
  (Forall (λ b, Z_of_byte b ≠ 0) field ->
   get this name = Ok (VString (Byte.to_N <$> field))).
Proof.
  intros Hri Hd Ht offset L field.
  destruct (record_instance_well_sized _ _ Hri name d Hd) as (Ho & Hl & Hfit).
  rewrite Ht in Hfit. simpl in Hfit.
  assert (Hget : get this name = Ok (VString (Byte.to_N <$> until_zero field))).
  { apply cstring_get_in_bounds; auto; lia. }
  unfold getLength, byteLength in Hfit.
  repeat split.
  - subst field. rewrite length_take, length_drop. lia.
  - exact Hget.
  - rewrite Hget.
    rewrite (cstring_get_in_bounds (with_buffer this _) name d Hd Ht Ho);
      [|lia|].
    + cbn [_buffer with_buffer]. do 3 f_equal. subst field offset L.
      rewrite <- take_drop_commute, take_take, Nat.min_id. reflexivity.
    + unfold getLength, byteLength. cbn [_buffer with_buffer].
      rewrite length_take. lia.
  - intros Hnz. rewrite Hget, until_zero_all by done. reflexivity.
Qed.

(** C3.  [set] on a [cstring] field of capacity [c] with the String [s]
    writes the first [n = min(|s|, c - 1)] code units of [s] (each modulo
    256) from the offset of the field, then one zero byte.  So a
    terminator follows the content, a longer input is cut to [c - 1]
    bytes and the last byte of the field is then 0, and every byte after
    the terminator (and before the field) is as it was: nothing is
    zero-filled. *)
Theorem cstring_set (this : instance) (name : jsstring) (d : def)
    (s : jsstring) :
  record_instance StringToNumber this ->
  obj_get (_defMap this) name = PDef d ->
  def_type d = cstring ->
  let b := _buffer this in
  let offset := Z.to_nat (def_offset d) in
  let n := Z.to_nat (Z.min (Z.of_nat (length s)) (def_length d - 1)) in
  ∃ this',
    set StringToNumber this name (VString s) = (Ok (), this') ∧
    _buffer this'
    = take offset b ++ (byte_of_code <$> take n s)
        ++ x00 :: drop (offset + n + 1) b ∧
    _defMap this' = _defMap this ∧
    LITTE_ENDIAN this' = LITTE_ENDIAN this ∧
    (∀ i c, (i < n)%nat -> s !! i = Some c ->
       _buffer this' !! (offset + i)%nat = Some (byte_of_code c)) ∧
    _buffer this' !! (offset + n)%nat = Some x00 ∧
    (def_length d - 1 <= Z.of_nat (length s) ->
     _buffer this' !! Z.to_nat (def_offset d + def_length d - 1) = Some x00) ∧
    (∀ i, (offset + n < i)%nat -> _buffer this' !! i = b !! i) ∧
    (∀ i, (i < offset)%nat -> _buffer this' !! i = b !! i).
Proof.
  intros Hri Hd Ht b offset n.
  destruct (record_instance_well_sized _ _ Hri name d Hd) as (Ho & Hl & Hfit).
  rewrite Ht in Hfit. simpl in Hfit. unfold getLength in Hfit.
  assert (Hn : Z.of_nat n <= def_length d - 1) by lia.
  assert (Hns : (n <= length s)%nat) by lia.
  destruct (buffer_split b (def_offset d) (Z.of_nat n + 1) Ho ltac:(lia)
              ltac:(fold b in Hfit; lia))
    as (pre & mid1 & post & Hsplit & Hpre & Hmid1 & Epre & _ & Epost).
  assert (Hmid : ∃ mid z, mid1 = mid ++ [z] ∧ length mid = n).
  { exists (take n mid1), (default x00 (last mid1)).
    split; [|rewrite length_take; lia].
    destruct (exists_last (l := mid1)) as (mid & z & ->).
    { intros ->. simpl in Hmid1. lia. }
    rewrite length_app in Hmid1. simpl in Hmid1.
    rewrite last_snoc. simpl. rewrite take_app_length'; [done|lia]. }
  destruct Hmid as (mid & z & -> & Hmid).
  set (written := byte_of_code <$> take n s).
  exists (with_buffer this (pre ++ written ++ x00 :: post)).
  assert (Hbuf : pre ++ written ++ x00 :: post
               = take offset b ++ written ++ x00 :: drop (offset + n + 1) b).
  { rewrite Epre, Epost. do 4 f_equal. lia. }
  assert (Hlw : length written = n).
  { subst written. rewrite length_fmap, length_take. lia. }
  assert (Hlp : length pre = offset) by lia.
  split; [|split; [exact Hbuf|]].
  - unfold set. rewrite (getDefByName_entry _ _ _ Hd), Ht.
    cbn [setter]. fold n. fold b. rewrite Hsplit, <- Hpre, <- Hmid.
    rewrite <- app_assoc.
    change (cstring_setter_loop (length mid) s 0)
      with (cstring_setter_loop (length mid) s (Z.of_nat 0)).
    rewrite (cstring_setter_loop_app s 0 pre mid ([z] ++ post)) by lia.
    rewrite drop_0, Hmid. fold written.
    replace (Z.of_nat (length pre) + Z.of_nat n)
      with (Z.of_nat (length (pre ++ written)))
      by (rewrite length_app; lia).
    replace (pre ++ written ++ [z] ++ post)
      with ((pre ++ written) ++ z :: post)
      by (rewrite <- app_assoc; reflexivity).
    cbn [_buffer with_buffer]. rewrite setUint8_app. unfold store.
    unfold with_buffer. cbn [_defMap LITTE_ENDIAN _buffer].
    rewrite <- app_assoc. reflexivity.
  - cbn [_buffer _defMap LITTE_ENDIAN with_buffer].
    assert (Hat : ∀ i, (pre ++ written ++ x00 :: post) !! (offset + n + i)%nat
                       = (x00 :: post) !! i).
    { intros i. rewrite lookup_app_r by lia.
      rewrite lookup_app_r by lia. f_equal. lia. }
    repeat split.
    + intros i c Hi Hc. rewrite lookup_app_r by lia.
      rewrite lookup_app_l by lia.
      replace (offset + i - length pre)%nat with i by lia.
      subst written. rewrite list_lookup_fmap, lookup_take_lt by lia.
      rewrite Hc. reflexivity.
    + rewrite <- (Nat.add_0_r (offset + n)), Hat. reflexivity.
    + intros Hlong.
      replace (Z.to_nat (def_offset d + def_length d - 1))
        with (offset + n + 0)%nat by lia.
      rewrite Hat. reflexivity.
    + intros i Hi. replace i with (offset + n + S (i - offset - n - 1))%nat by lia.
      rewrite Hat.
      change ((x00 :: post) !! S (i - offset - n - 1)%nat)
        with (post !! (i - offset - n - 1)%nat).
      rewrite Epost, lookup_drop. f_equal. lia.
    + intros i Hi. rewrite lookup_app_l by lia. rewrite Epre.
      apply lookup_take_lt. lia.
Qed.

End StringFields.

Lemma cstring_get_witness :
  ∃ this,
    Struct [str "cstring tag[3]"] (Some (byte_of_code <$> str "abc")) None
    = Ok this ∧
    get this (str "tag") = Ok (VString (str "abc")).
Proof.
  eexists.
  assert (Hnew : Struct [str "cstring tag[3]"]
                   (Some (byte_of_code <$> str "abc")) None = Ok ?[this])
    by (vm_compute; reflexivity).
  assert (Hparse : _parseDefs empty_object [str "cstring tag[3]"]
                   = Ok (3, ?[defMap])) by (vm_compute; reflexivity).
  assert (Hfit : 3 <= byteLength (byte_of_code <$> str "abc"))
    by (vm_compute; discriminate).
  assert (Hmax : byteLength (byte_of_code <$> str "abc") <= MAX_BYTE_LENGTH)
    by (vm_compute; discriminate).
  pose proof (ri_wrap (λ _, 0) _ _ _ _ _ _ Hparse Hfit Hmax Hnew) as Hri.
  split; [exact Hnew|].
  destruct (cstring_get (λ _, 0) _ (str "tag")
              {| def_type := cstring; def_offset := 0; def_length := 3 |} Hri)
    as (_ & _ & _ & Hfull); [vm_compute; reflexivity|reflexivity|].
  rewrite Hfull; [vm_compute; reflexivity|].
  vm_compute. repeat constructor; discriminate.
Defined.

Lemma cstring_set_witness :
  ∃ this this' this'',
    Struct [str "cstring method[11]"] None None = Ok this ∧
    set (λ _, 0) this (str "method") (VString (str "supercalifragilistic"))
    = (Ok (), this') ∧
    _buffer this' = (byte_of_code <$> str "supercalif") ++ [x00] ∧
    set (λ _, 0) this' (str "method") (VString (str "buy")) = (Ok (), this'') ∧
    _buffer this''
    = (byte_of_code <$> str "buy") ++ [x00]
      ++ (byte_of_code <$> str "rcalif") ++ [x00].
Proof.
  eexists.
  assert (Hnew : Struct [str "cstring method[11]"] None None = Ok ?[this])
    by (vm_compute; reflexivity).
  pose proof (ri_new (λ _, 0) _ _ _ Hnew) as Hri.
  destruct (cstring_set (λ _, 0) _ (str "method")
              {| def_type := cstring; def_offset := 0; def_length := 11 |}
              (str "supercalifragilistic") Hri)
    as (this' & Hset & Hbuf & Hmap & _); [vm_compute; reflexivity|reflexivity|].
  pose proof (ri_set _ _ _ _ _ _ Hri Hset) as Hri'.
  destruct (cstring_set (λ _, 0) this' (str "method")
              {| def_type := cstring; def_offset := 0; def_length := 11 |}
              (str "buy") Hri')
    as (this'' & Hset' & Hbuf' & _);
    [rewrite Hmap; vm_compute; reflexivity|reflexivity|].
  exists this', this''. split; [exact Hnew|]. split; [exact Hset|].
  split; [rewrite Hbuf; vm_compute; reflexivity|]. split; [exact Hset'|].
  rewrite Hbuf', Hbuf. vm_compute. reflexivity.
Defined.

(** ** Byte order *)

Lemma le_decode_foldr (l : list byte) :
  le_decode l = foldr (λ b n, b + 256 * n) 0 (Z_of_byte <$> l).
Proof.
  induction l as [|b l IH]; [reflexivity|].
  cbn [le_decode fmap list_fmap foldr]. rewrite IH. reflexivity.
Qed.

Lemma fmap_rev {A B} (f : A -> B) (l : list A) : f <$> rev l = rev (f <$> l).
Proof.
  induction l as [|a l IH]; [reflexivity|].
  cbn [rev]. rewrite fmap_app, IH. reflexivity.
Qed.

Section Endianness.
Variable StringToNumber : jsstring -> Z.

(** C5.  One flag governs the byte order of every operation on the
    multi-byte integers of an instance.  After [set(name, v)] on a [uint16]
    or [uint32] field, the bytes [eachByte] reads at the offset of the field
    are those of [v] least significant first when the flag is true and most
    significant first otherwise; for a [uint32] set to 0x01020304 they are
    [04 03 02 01] and [01 02 03 04].  [get(name)] reads the bytes of the
    field in the same order: the first is the least significant when the
    flag is true and the most significant otherwise, so that the bytes
    [01 02 03 04] of a [uint32] read as 0x04030201 and as 0x01020304.  A
    constructor call without the flag yields the second, big-endian,
    order. *)
Theorem endianness_flag (this : instance) (name : jsstring) (d : def)
    (v : Z) :
  record_instance StringToNumber this ->
  obj_get (_defMap this) name = PDef d ->
  def_type d = uint16 ∨ def_type d = uint32 ->
  (∃ this' bytes,
     set StringToNumber this name (VNumber v) = (Ok (), this') ∧
     eachByte this' (λ v _ acc, Ok (acc ++ [v])) [] = Ok bytes ∧
     let field :=
       take (width (def_type d)) (drop (Z.to_nat (def_offset d)) bytes) in
     field
     = Z_of_byte <$> (if ToBoolean (LITTE_ENDIAN this)
                      then le_encode (width (def_type d)) v
                      else rev (le_encode (width (def_type d)) v)) ∧
     (def_type d = uint32 -> v = 0x01020304 ->
      field = if ToBoolean (LITTE_ENDIAN this) then [4; 3; 2; 1]
              else [1; 2; 3; 4])) ∧
  (∃ bytes,
     eachByte this (λ v _ acc, Ok (acc ++ [v])) [] = Ok bytes ∧
     let field :=
       take (width (def_type d)) (drop (Z.to_nat (def_offset d)) bytes) in
     length field = width (def_type d) ∧
     get this name
     = Ok (VNumber (foldr (λ b n, b + 256 * n) 0
                      (if ToBoolean (LITTE_ENDIAN this) then field
                       else rev field))) ∧
     (def_type d = uint32 -> field = [1; 2; 3; 4] ->
      get this name
      = Ok (VNumber (if ToBoolean (LITTE_ENDIAN this) then 0x04030201
                     else 0x01020304)))) ∧
  (∀ defs buffer this0,
     Struct defs buffer None = Ok this0 ->
     ToBoolean (LITTE_ENDIAN this0) = false).
Proof.
  intros Hri Hd Ht.
  pose proof (record_instance_well_sized _ _ Hri name d Hd) as Hlay.
  assert (Hnc : def_type d ≠ cstring) by (destruct Ht as [-> | ->]; done).
  assert (Hord : order (def_type d) this = LITTE_ENDIAN this)
    by (destruct Ht as [-> | ->]; done).
  destruct (integer_set_get StringToNumber this name d v Hd Hnc Hlay)
    as (pre & mid & post & Hsplit & Hpre & Hmid & Hset & _).
  split; [|split].
  - cbv zeta in Hset. rewrite Hord in Hset.
    eexists _, _. split; [exact Hset|]. split.
    { rewrite eachByte_fold. apply fold_bytes_collect. }
    cbn [app _buffer with_buffer].
    rewrite <- fmap_drop, <- fmap_take, <- Hpre, Nat2Z.id.
    rewrite drop_app_length.
    rewrite take_app_length' by (by rewrite length_NumericToRawBytes).
    split; [reflexivity|].
    intros Hty ->. rewrite Hty. unfold NumericToRawBytes.
    destruct (ToBoolean (LITTE_ENDIAN this)); reflexivity.
  - eexists. split.
    { rewrite eachByte_fold. apply fold_bytes_collect. }
    cbn [app]. rewrite Hsplit.
    rewrite <- fmap_drop, <- fmap_take, <- Hpre, Nat2Z.id.
    rewrite drop_app_length, take_app_length' by (by rewrite Hmid).
    assert (Hget : get this name
              = Ok (VNumber (foldr (λ b n, b + 256 * n) 0
                      (if ToBoolean (LITTE_ENDIAN this) then Z_of_byte <$> mid
                       else rev (Z_of_byte <$> mid))))).
    { unfold get. rewrite (getDefByName_entry _ _ _ Hd).
      cbn [mbind outcome_bind]. rewrite getter_integer by exact Hnc.
      rewrite Hord, Hsplit, <- Hpre, <- Hmid, GetViewValue_app.
      cbn [fmap outcome_fmap]. do 2 f_equal.
      unfold RawBytesToNumeric. rewrite le_decode_foldr.
      destruct (ToBoolean (LITTE_ENDIAN this)); [reflexivity|].
      rewrite fmap_rev. reflexivity. }
    split; [by rewrite length_fmap|]. split; [exact Hget|].
    intros _ Hfield. rewrite Hget, Hfield.
    destruct (ToBoolean (LITTE_ENDIAN this)); reflexivity.
  - intros defs buffer this0 H. apply Struct_Ok in H.
    destruct H as (_ & _ & _ & _ & -> & _). reflexivity.
Qed.

End Endianness.

Lemma endianness_flag_witness :
  ∃ this this' bytes,
    Struct packet None (Some true) = Ok this ∧
    set (λ _, 0) this (str "statusCode") (VNumber 0x01020304) = (Ok (), this') ∧
    eachByte this' (λ v _ acc, Ok (acc ++ [v])) [] = Ok bytes ∧
    take 4 (drop 2 bytes) = [4; 3; 2; 1].
Proof.
  eexists.
  assert (Hnew : Struct packet None (Some true) = Ok ?[this])
    by (vm_compute; reflexivity).
  destruct (endianness_flag (λ _, 0) _ (str "statusCode")
              {| def_type := uint32; def_offset := 2; def_length := 1 |}
              0x01020304 (ri_new _ _ _ _ Hnew))
    as [(this' & bytes & Hset & Hbytes & _ & Hfield) _].
  - vm_compute. reflexivity.
  - right. reflexivity.
  - exists this', bytes. split; [exact Hnew|]. split; [exact Hset|].
    split; [exact Hbytes|]. exact (Hfield eq_refl eq_refl).
Defined.

(** ** Unknown names *)

Section UnknownField.
Variable StringToNumber : jsstring -> Z.

(** A name that reads as a falsy value in [_defMap] is rejected by
    [_getDefByName], before anything is read or written. *)
Lemma unknown_field (this : instance) (name : jsstring) (v : value) :
  truthy (obj_get (_defMap this) name) = false ->
  get this name = Throw (Error (name ++ str "does not defined")) ∧
  set StringToNumber this name v
  = (Throw (Error (name ++ str "does not defined")), this).
Proof.
  intros H. unfold get, set, _getDefByName. rewrite H. done.
Qed.

Lemma undeclared_name (this : instance) (name : jsstring) :
  proto (_defMap this) = None ->
  own (_defMap this) !! name = None ->
  name ∉ ObjectPrototype_keys ->
  truthy (obj_get (_defMap this) name) = false.
Proof.
  intros Hp Ho Hk. unfold obj_get. rewrite Hp, Ho.
  case_bool_decide as E.
  - exfalso. apply Hk. rewrite E. vm_compute. set_solver.
  - unfold ObjectPrototype_get. rewrite bool_decide_eq_false_2 by done. done.
Qed.

End UnknownField.

(** C7.  The name [toString] is in no layout, yet [get] and [set] on it
    do not throw the Error of [_getDefByName]: [_defMap] inherits
    [toString] from [Object.prototype], the function read there is truthy,
    and the accessors throw a TypeError on [Struct._typeMap[undefined]].
    The buffer is untouched. *)
Theorem inherited_name_TypeError :
  ∃ this,
    Struct [str "uint8 a"] None None = Ok this ∧
    (∀ d, obj_get (_defMap this) (str "toString") ≠ PDef d) ∧
    get this (str "toString") = Throw TypeError ∧
    ∀ StringToNumber v,
      set StringToNumber this (str "toString") v = (Throw TypeError, this).
Proof.
  eexists. split; [vm_compute; reflexivity|].
  split; [|split].
  - intros d. vm_compute. discriminate.
  - vm_compute. reflexivity.
  - intros f v. vm_compute. reflexivity.
Qed.

(** C8.  [getLength] returns the byte length of the backing buffer: the
    [totalBytes] of the layout when the constructor allocated the buffer,
    the length of the supplied buffer otherwise. *)
Theorem getLength_byteLength (defs : list jsstring)
    (buffer : option ArrayBuffer) (isLittleEndian : option bool)
    (this : instance) :
  Struct defs buffer isLittleEndian = Ok this ->
  ∃ totalBytes defMap,
    _parseDefs empty_object defs = Ok (totalBytes, defMap) ∧
    getLength this = byteLength (_buffer this) ∧
    getLength this
    = match buffer with
      | Some b => byteLength b
      | None => totalBytes
      end.
Proof.
  intros H. apply Struct_Ok in H.
  destruct H as (t & m & Hp & _ & _ & Hb). exists t, m.
  split; [exact Hp|]. split; [reflexivity|].
  destruct buffer as [b|]; [unfold getLength; by rewrite Hb|tauto].
Qed.

Lemma getLength_byteLength_witness :
  ∃ this totalBytes defMap,
    Struct packet None None = Ok this ∧
    _parseDefs empty_object packet = Ok (totalBytes, defMap) ∧
    getLength this = totalBytes ∧ totalBytes = 22.
Proof.
  eexists.
  assert (Hnew : Struct packet None None = Ok ?[this])
    by (vm_compute; reflexivity).
  destruct (getLength_byteLength packet None None _ Hnew)
    as (totalBytes & defMap & Hparse & _ & Hlen).
  exists totalBytes, defMap. split; [exact Hnew|]. split; [exact Hparse|].
  split; [exact Hlen|]. rewrite <- Hlen. vm_compute. reflexivity.
Defined.

Lemma getLength_supplied_counterexample :
  ∃ this defMap,
    Struct [str "uint8 a"] (Some [x00; x00; x00; x00; x00]) None = Ok this ∧
    _parseDefs empty_object [str "uint8 a"] = Ok (1, defMap) ∧
    getLength this = 5.
Proof. eexists _, _. repeat split; vm_compute; reflexivity. Qed.

(** ** Rendering *)

Lemma padZero_hex (b : byte) :
  _padZero (Number_toString (Z_of_byte b) 16) 2 = Ok (numeral 16 2 b).
Proof. destruct b; vm_compute; reflexivity. Qed.

Lemma padZero_binary (b : byte) :
  _padZero (Number_toString (Z_of_byte b) 2) 8 = Ok (numeral 2 8 b).
Proof. destruct b; vm_compute; reflexivity. Qed.

Lemma fold_bytes_render (render : Z -> outcome jsstring)
    (digits : byte -> jsstring) (bs : list byte) (i : Z) (acc : jsstring) :
  (∀ b, render (Z_of_byte b) = Ok (digits b)) ->
  fold_bytes (λ v _ str, s ← render v; Ok (str ++ s)) i bs acc
  = Ok (acc ++ concat (digits <$> bs)).
Proof.
  intros Hr. revert i acc. induction bs as [|b bs IH]; intros i acc.
  - simpl. rewrite app_nil_r. reflexivity.
  - cbn [fold_bytes]. rewrite Hr. cbn [mbind outcome_bind].
    rewrite IH, <- app_assoc. reflexivity.
Qed.

Lemma toString_hex_spec (this : instance) :
  toString_hex this = Ok (concat (numeral 16 2 <$> _buffer this)).
Proof.
  unfold toString_hex. rewrite eachByte_fold.
  apply (fold_bytes_render (λ v, _padZero (Number_toString v 16) 2)
           (numeral 16 2) (_buffer this) 0 []).
  apply padZero_hex.
Qed.

Lemma toString_binary_spec (this : instance) :
  toString_binary this = Ok (concat (numeral 2 8 <$> _buffer this)).
Proof.
  unfold toString_binary. rewrite eachByte_fold.
  apply (fold_bytes_render (λ v, _padZero (Number_toString v 2) 8)
           (numeral 2 8) (_buffer this) 0 []).
  apply padZero_binary.
Qed.

(** C9.  [toString] in mode [hex] returns, for the bytes of the buffer in
    order, two hexadecimal digits each, and in mode [binary] eight binary
    digits each; a buffer holding the single byte 255 renders as [ff] and
    [11111111].  Without a mode, or with the empty String, it renders as
    [hex].  Any other mode that is neither a renderer nor a name inherited
    from [Object.prototype] throws a TypeError. *)
Theorem toString_modes (this : instance) :
  toString this (Some (str "hex"))
  = Ok (RString (concat (numeral 16 2 <$> _buffer this))) ∧
  toString this (Some (str "binary"))
  = Ok (RString (concat (numeral 2 8 <$> _buffer this))) ∧
  (∀ b, length (numeral 16 2 b) = 2%nat ∧ length (numeral 2 8 b) = 8%nat) ∧
  (_buffer this = [xff] ->
   toString this (Some (str "hex")) = Ok (RString (str "ff")) ∧
   toString this (Some (str "binary")) = Ok (RString (str "11111111"))) ∧
  toString this None = toString this (Some (str "hex")) ∧
  toString this (Some []) = toString this (Some (str "hex")) ∧
  (∀ type, type ≠ [] -> type ≠ str "hex" -> type ≠ str "binary" ->
     type ∉ ObjectPrototype_keys ->
     toString this (Some type) = Throw TypeError).
Proof.
  assert (Hhex : toString this (Some (str "hex"))
                 = Ok (RString (concat (numeral 16 2 <$> _buffer this)))).
  { unfold toString. change (bool_decide (str "hex" = str "hex")) with true.
    cbv iota. rewrite toString_hex_spec. reflexivity. }
  assert (Hbin : toString this (Some (str "binary"))
                 = Ok (RString (concat (numeral 2 8 <$> _buffer this)))).
  { unfold toString.
    change (bool_decide (str "binary" = str "hex")) with false.
    change (bool_decide (str "binary" = str "binary")) with true.
    cbv iota. rewrite toString_binary_spec. reflexivity. }
  repeat split; try done.
  - rewrite Hhex, H. reflexivity.
  - rewrite Hbin, H. reflexivity.
  - intros type Hne Hh Hb Hk. unfold toString.
    destruct type as [|c s]; [done|].
    rewrite !bool_decide_eq_false_2 by done. reflexivity.
Qed.

Lemma toString_default_counterexample :
  (∃ this,
     Struct [str "uint8 bodyType"] (Some [xff]) None = Ok this ∧
     toString this (Some (str "")) = Ok (RString (str "ff"))) ∧
  (∃ this defMap,
     Struct [str "uint8 bodyType"] (Some [xff; x01]) None = Ok this ∧
     _parseDefs empty_object [str "uint8 bodyType"] = Ok (1, defMap) ∧
     toString this (Some (str "hex")) = Ok (RString (str "ff01"))).
Proof.
  split.
  - eexists. split; vm_compute; reflexivity.
  - eexists _, _. repeat split; vm_compute; reflexivity.
Qed.

(** * Further properties of the program *)

(** ** The compiled layout *)

Lemma forEach_lookup (defs : list jsstring) (t t' : Z) (m m' : object)
    (k : jsstring) (d : def) :
  0 <= t -> t + sumZ (footprint <$> defs) <= 2 ^ 53 ->
  _parseDefs_forEach defs t m = Ok (t', m') ->
  obj_get m' k = PDef d ->
  (obj_get m k = PDef d ∧ Forall (λ def, ¬ declares def k) defs) ∨
  (∃ i def type count,
     defs !! i = Some def ∧ rDef_exec def = Some (type, k, count) ∧
     d = {| def_type := type;
            def_offset := t + sumZ (footprint <$> take i defs);
            def_length := count_of count |} ∧
     ∀ j def', (i < j)%nat -> defs !! j = Some def' -> ¬ declares def' k).
Proof.
  revert t m. induction defs as [|def defs IH]; intros t m Ht;
    cbn [_parseDefs_forEach].
  - intros _ [= <- <-] Hk. left. split; [exact Hk|constructor].
  - destruct (rDef_exec def) as [[[ty name] count]|] eqn:E; [|discriminate].
    change (sumZ (footprint <$> def :: defs))
      with (footprint def + sumZ (footprint <$> defs)).
    destruct (footprint_exec _ _ _ _ E) as (Hfp & Hc & ->).
    pose proof (byteSize_pos ty) as Hb.
    pose proof (sumZ_footprint_nonneg defs) as Hs.
    rewrite Hfp. intros Hfit.
    destruct (total_step_exact t (count_of count) (byteSize ty)) as [Er ->];
      [lia..|].
    rewrite Er. intros H Hk.
    assert (Ht' : 0 <= t + count_of count * byteSize ty) by nia.
    destruct (IH _ _ Ht' ltac:(lia) H Hk)
      as [[Hk1 Hrest]|(i & def' & ty' & c' & Hi & E' & -> & Hlast)].
    + apply obj_get_set_PDef in Hk1. destruct Hk1 as [[-> ->]|[Hne Hk0]].
      * right. exists 0%nat, def, ty, count. repeat split; auto.
        { simpl. f_equal. unfold sumZ. simpl. lia. }
        intros j def' Hj Hdef'. destruct j as [|j]; [lia|].
        eapply (proj1 (Forall_lookup _ _) Hrest); exact Hdef'.
      * left. split; [exact Hk0|]. constructor; [|exact Hrest].
        intros (ty' & c' & E'). congruence.
    + right. exists (S i), def', ty', c'. repeat split; auto.
      * f_equal. cbn [take fmap list_fmap]. unfold sumZ at 2. simpl.
        fold (sumZ (footprint <$> take i defs)). rewrite Hfp. lia.
      * intros j def'' Hj Hdef''. destruct j as [|j]; [lia|].
        apply (Hlast j def''); [lia|exact Hdef''].
Qed.

Lemma parse_lookup (defs : list jsstring) (totalBytes : Z) (defMap : object)
    (name : jsstring) (d : def) :
  _parseDefs empty_object defs = Ok (totalBytes, defMap) ->
  totalBytes <= MAX_BYTE_LENGTH ->
  obj_get defMap name = PDef d ->
  ∃ i def type count,
    defs !! i = Some def ∧ rDef_exec def = Some (type, name, count) ∧
    d = {| def_type := type; def_offset := offset_at defs i;
           def_length := count_of count |} ∧
    ∀ j def', (i < j)%nat -> defs !! j = Some def' -> ¬ declares def' name.
Proof.
  intros Hparse Hmax Hd.
  pose proof (parseDefs_exact _ _ _ Hparse Hmax) as Hsum.
  unfold _parseDefs in Hparse. unfold MAX_BYTE_LENGTH in Hmax.
  assert (Hfit : 0 + sumZ (footprint <$> defs) <= 2 ^ 53) by lia.
  destruct (forEach_lookup _ _ _ _ _ _ _ (Z.le_refl 0) Hfit Hparse Hd)
    as [[Hk _]|(i & def & ty & c & Hi & E & -> & Hlast)].
  - by apply empty_object_no_entry in Hk.
  - exists i, def, ty, c. rewrite Z.add_0_l. auto.
Qed.

(** X1.  A compiled layout of at most [MAX_BYTE_LENGTH] bytes, the most an
    ArrayBuffer holds, maps a name to the entry of the last descriptor that
    declares it, at the offset that descriptor has in the sequence, and maps
    no other name to an entry: an earlier declaration of the same name keeps
    its bytes in the record but is no longer reachable by name. *)
Theorem layout_last_declaration (defs : list jsstring) (totalBytes : Z)
    (defMap : object) (name : jsstring) (d : def) :
  _parseDefs empty_object defs = Ok (totalBytes, defMap) ->
  totalBytes <= MAX_BYTE_LENGTH ->
  obj_get defMap name = PDef d ↔
  ∃ i def type count,
    defs !! i = Some def ∧ rDef_exec def = Some (type, name, count) ∧
    d = {| def_type := type; def_offset := offset_at defs i;
           def_length := count_of count |} ∧
    ∀ j def', (i < j)%nat -> defs !! j = Some def' -> ¬ declares def' name.
Proof.
  intros Hparse Hmax.
  split; [apply parse_lookup with totalBytes; assumption|].
  pose proof (parseDefs_exact _ _ _ Hparse Hmax) as Hsum.
  unfold MAX_BYTE_LENGTH in Hmax. unfold _parseDefs in Hparse.
  intros (i & def & ty & c & Hi & E & -> & Hlast).
  assert (Hnext : offset_at defs (S i) <= 2 ^ 53).
  { rewrite <- offset_at_all in Hsum.
    destruct (Nat.le_gt_cases (S i) (length defs)) as [Hle|Hgt].
    - pose proof (offset_at_mono defs _ _ Hle). lia.
    - apply lookup_lt_Some in Hi. lia. }
  rewrite (offset_at_S _ _ _ Hi) in Hnext.
  pose proof (footprint_nonneg def) as Hfn.
  pose proof (offset_at_mono defs 0 i ltac:(lia)) as H0.
  change (offset_at defs 0) with 0 in H0.
  rewrite <- (take_drop_middle _ _ _ Hi), forEach_app in Hparse.
  destruct (_parseDefs_forEach (take i defs) 0 empty_object)
    as [[t1 m1]| |] eqn:E1; try discriminate.
  cbn [mbind outcome_bind _parseDefs_forEach] in Hparse.
  rewrite E in Hparse.
  destruct (footprint_exec _ _ _ _ E) as (Hfp & Hc & Hlen).
  rewrite Hlen in Hparse.
  assert (Ht1 : t1 = 0 + sumZ (footprint <$> take i defs)).
  { apply forEach_total in E1; [exact E1|lia|]. fold (offset_at defs i). lia. }
  rewrite Z.add_0_l in Ht1. fold (offset_at defs i) in Ht1. subst t1.
  rewrite (round_double_exact (count_of c)) in Hparse
    by (pose proof (byteSize_pos ty); nia).
  eapply forEach_keep; [exact Hparse|apply obj_get_set_eq|].
  apply Forall_lookup. intros j def' Hj ty' c' E'.
  rewrite lookup_drop in Hj.
  apply (Hlast (S i + j)%nat def'); [lia|exact Hj|]. exists ty', c'. exact E'.
Qed.

Lemma layout_last_declaration_witness :
  ∃ defMap,
    _parseDefs empty_object [str "uint8 a"; str "uint32 b"; str "uint16 a"]
    = Ok (7, defMap) ∧
    7 <= MAX_BYTE_LENGTH ∧
    obj_get defMap (str "a")
    = PDef {| def_type := uint16; def_offset := 5; def_length := 1 |}.
Proof.
  eexists.
  assert (Hparse : _parseDefs empty_object
                     [str "uint8 a"; str "uint32 b"; str "uint16 a"]
                   = Ok (7, ?[defMap])) by (vm_compute; reflexivity).
  assert (Hmax : 7 <= MAX_BYTE_LENGTH) by (vm_compute; discriminate).
  split; [exact Hparse|]. split; [exact Hmax|].
  apply (layout_last_declaration _ _ _ (str "a") _ Hparse Hmax).
  exists 2%nat, (str "uint16 a"), uint16, [].
  repeat split; try reflexivity.
  intros j def' Hj Hdef'. do 3 (destruct j as [|j]; [lia|]). discriminate.
Defined.

(** X2.  Every entry of a compiled layout of at most [MAX_BYTE_LENGTH]
    bytes has a length of at least one element and lies within the first
    [totalBytes] bytes, [totalBytes] is the exact sum of the footprints, and
    every descriptor accounts for at least one byte of it. *)
Theorem layout_within_total (defs : list jsstring) (totalBytes : Z)
    (defMap : object) :
  _parseDefs empty_object defs = Ok (totalBytes, defMap) ->
  totalBytes <= MAX_BYTE_LENGTH ->
  totalBytes = sumZ (footprint <$> defs) ∧
  Z.of_nat (length defs) <= totalBytes ∧
  ∀ name d, obj_get defMap name = PDef d ->
    0 <= def_offset d ∧ 1 <= def_length d ∧
    def_offset d + def_length d * byteSize (def_type d) <= totalBytes.
Proof.
  intros Hparse Hmax.
  pose proof (parseDefs_exact _ _ _ Hparse Hmax) as Hsum.
  split; [lia|]. split; [|exact (parseDefs_layout _ _ _ Hparse Hmax)].
  apply forEach_valid in Hparse. rewrite <- Hsum.
  clear -Hparse. induction Hparse as [|def defs Hdef _ IH].
  - simpl. lia.
  - change (sumZ (footprint <$> def :: defs))
      with (footprint def + sumZ (footprint <$> defs)).
    pose proof (footprint_pos def Hdef). cbn [length]. lia.
Qed.

Lemma layout_within_total_witness :
  ∃ defMap,
    _parseDefs empty_object packet = Ok (22, defMap) ∧
    22 <= MAX_BYTE_LENGTH ∧
    Z.of_nat (length packet) <= 22.
Proof.
  eexists.
  assert (Hparse : _parseDefs empty_object packet = Ok (22, ?[defMap]))
    by (vm_compute; reflexivity).
  assert (Hmax : 22 <= MAX_BYTE_LENGTH) by (vm_compute; discriminate).
  split; [exact Hparse|]. split; [exact Hmax|].
  exact (proj1 (proj2 (layout_within_total _ _ _ Hparse Hmax))).
Defined.

(** X3.  [rDef] matches a string, with the groups [(type, name, count)],
    exactly when the string is the type, one space, a non-empty name of word
    characters and, when [count] is not empty, the decimal digits [count]
    between brackets. *)
Theorem rDef_accepts (s : jsstring) (t : type) (name count : jsstring) :
  rDef_exec s = Some (t, name, count) ↔
  name ≠ [] ∧ Forall (λ c, is_word c = true) name ∧
  Forall (λ c, is_digit c = true) count ∧ s = descriptor t name count.
Proof.
  split; [apply rDef_exec_sound|].
  intros (Hn & Hw & Hd & ->). by apply rDef_exec_complete.
Qed.

(** ** Fields do not interfere *)

(** Entries under distinct names occupy disjoint byte ranges. *)
Lemma entries_separate (defs : list jsstring) (totalBytes : Z)
    (defMap : object) (k k' : jsstring) (d d' : def) :
  _parseDefs empty_object defs = Ok (totalBytes, defMap) ->
  totalBytes <= MAX_BYTE_LENGTH ->
  k ≠ k' -> obj_get defMap k = PDef d -> obj_get defMap k' = PDef d' ->
  def_offset d + def_length d * byteSize (def_type d) <= def_offset d' ∨
  def_offset d' + def_length d' * byteSize (def_type d') <= def_offset d.
Proof.
  intros Hparse Hmax Hne Hd Hd'.
  destruct (parse_lookup _ _ _ _ _ Hparse Hmax Hd)
    as (i & def & ty & c & Hi & E & -> & _).
  destruct (parse_lookup _ _ _ _ _ Hparse Hmax Hd')
    as (i' & def' & ty' & c' & Hi' & E' & -> & _).
  cbn [def_offset def_length def_type].
  assert (Hfp : footprint def = count_of c * byteSize ty)
    by (unfold footprint; rewrite E; reflexivity).
  assert (Hfp' : footprint def' = count_of c' * byteSize ty')
    by (unfold footprint; rewrite E'; reflexivity).
  rewrite <- Hfp, <- Hfp'.
  destruct (Nat.lt_total i i') as [Hlt|[->|Hlt]].
  - left. rewrite <- (offset_at_S _ _ _ Hi). apply offset_at_mono. lia.
  - congruence.
  - right. rewrite <- (offset_at_S _ _ _ Hi'). apply offset_at_mono. lia.
Qed.

(** A range of two buffers that hold the same bytes there. *)
Lemma take_drop_agree (b b' : list byte) (o n : nat) :
  (∀ i, (o <= i < o + n)%nat -> b' !! i = b !! i) ->
  take n (drop o b') = take n (drop o b).
Proof.
  intros H. apply list_eq. intros i.
  destruct (decide (i < n)%nat) as [Hi|Hi].
  - rewrite !lookup_take_lt, !lookup_drop by lia. apply H. lia.
  - rewrite !lookup_take_ge by lia. reflexivity.
Qed.

Lemma lookup_splice (pre old new post : list byte) (i : nat) :
  length old = length new ->
  (i < length pre ∨ length pre + length old <= i)%nat ->
  (pre ++ new ++ post) !! i = (pre ++ old ++ post) !! i.
Proof.
  intros Hlen [Hi|Hi].
  - rewrite !lookup_app_l by lia. reflexivity.
  - rewrite !(lookup_app_r pre) by lia.
    rewrite !lookup_app_r by lia. rewrite Hlen. reflexivity.
Qed.

Section Frame.

Variable StringToNumber : jsstring -> Z.

Lemma record_instance_layout (this : instance) :
  record_instance StringToNumber this ->
  ∃ defs totalBytes,
    _parseDefs empty_object defs = Ok (totalBytes, _defMap this) ∧
    totalBytes <= getLength this ∧ getLength this <= MAX_BYTE_LENGTH.
Proof.
  induction 1 as [defs le this H|defs b le t m this Hp Hb Hmax H
                  |this name v r this' _ IH Hset].
  - pose proof (Struct_allocated _ _ _ H) as Hmax.
    apply Struct_Ok in H. destruct H as (t & m & Hp & <- & _ & <- & _).
    exists defs, (getLength this). split; [exact Hp|lia].
  - apply Struct_Ok in H. destruct H as (t' & m' & Hp' & <- & _ & Hbuf).
    rewrite Hp in Hp'. injection Hp' as -> ->.
    exists defs, t'. split; [exact Hp|]. unfold getLength. by rewrite Hbuf.
  - apply set_preserves in Hset. destruct Hset as (-> & _ & ->). exact IH.
Qed.

(** The buffer the [cstring] setter leaves in an instance that holds the
    field: [n] code units of [s], then the terminator. *)
Lemma cstring_setter_splice (this : instance) (d : def) (v : value) :
  def_type d = cstring ->
  in_layout d (getLength this) ->
  let s := match v with VString s => s | VNumber _ => [] end in
  let n := match v with
           | VString s =>
               Z.to_nat (Z.min (Z.of_nat (length s)) (def_length d - 1))
           | VNumber _ => 0%nat
           end in
  ∃ pre mid z post,
    _buffer this = pre ++ mid ++ z :: post ∧
    Z.of_nat (length pre) = def_offset d ∧ length mid = n ∧
    (n <= length s)%nat ∧ Z.of_nat n < def_length d ∧
    setter StringToNumber cstring this v (def_offset d) (def_length d)
    = (Ok (), with_buffer this
                (pre ++ (byte_of_code <$> take n s) ++ x00 :: post)).
Proof.
  intros Ht (Ho & Hl & Hfit) s n.
  rewrite Ht in Hfit. cbn [byteSize] in Hfit. unfold getLength in Hfit.
  assert (Hn : Z.of_nat n <= def_length d - 1 ∧ (n <= length s)%nat).
  { subst n s. destruct v; simpl; lia. }
  destruct (buffer_split (_buffer this) (def_offset d) (Z.of_nat n + 1) Ho
              ltac:(lia) ltac:(lia))
    as (pre & mid1 & post & Hsplit & Hpre & Hmid1 & _).
  destruct (exists_last (l := mid1)) as (mid & z & ->).
  { intros ->. simpl in Hmid1. lia. }
  rewrite length_app in Hmid1. simpl in Hmid1.
  assert (Hmid : length mid = n) by lia.
  exists pre, mid, z, post. rewrite <- app_assoc in Hsplit.
  split; [exact Hsplit|]. split; [exact Hpre|]. split; [exact Hmid|].
  split; [lia|]. split; [lia|].
  cbn [setter]. fold s. fold n.
  rewrite Hsplit, <- Hpre, <- Hmid.
  change (cstring_setter_loop (length mid) s 0)
    with (cstring_setter_loop (length mid) s (Z.of_nat 0)).
  rewrite (cstring_setter_loop_app s 0 pre mid ([z] ++ post)) by lia.
  rewrite drop_0.
  replace (Z.of_nat (length pre) + Z.of_nat (length mid))
    with (Z.of_nat (length (pre ++ (byte_of_code <$> take (length mid) s))))
    by (rewrite length_app, length_fmap, length_take; lia).
  replace (pre ++ (byte_of_code <$> take (length mid) s) ++ [z] ++ post)
    with ((pre ++ (byte_of_code <$> take (length mid) s)) ++ z :: post)
    by (rewrite <- app_assoc; reflexivity).
  cbn [_buffer with_buffer]. rewrite setUint8_app. unfold store.
  unfold with_buffer. cbn [_defMap LITTE_ENDIAN _buffer].
  rewrite <- !app_assoc. reflexivity.
Qed.

(** What a setter does to the buffer of an instance that holds the field:
    it returns, and replaces bytes inside the field only. *)
Lemma setter_splice (this : instance) (d : def) (v : value) :
  in_layout d (getLength this) ->
  ∃ pre old new post,
    _buffer this = pre ++ old ++ post ∧
    Z.of_nat (length pre) = def_offset d ∧
    length old = length new ∧
    Z.of_nat (length old) <= def_length d * byteSize (def_type d) ∧
    setter StringToNumber (def_type d) this v (def_offset d) (def_length d)
    = (Ok (), with_buffer this (pre ++ new ++ post)).
Proof.
  intros (Ho & Hl & Hfit).
  pose proof (byteSize_pos (def_type d)) as Hbs.
  assert (Hcase : def_type d = cstring ∨ def_type d ≠ cstring)
    by (destruct (def_type d); auto; right; discriminate).
  destruct Hcase as [Ht|Ht].
  - pose proof (cstring_setter_splice this d v Ht (conj Ho (conj Hl Hfit)))
      as H. cbv zeta in H.
    set (s := match v with VString s => s | VNumber _ => [] end) in H.
    set (n := match v with VString _ => _ | VNumber _ => _ end) in H.
    destruct H
      as (pre & mid & z & post & Hsplit & Hpre & Hmid & Hns & Hn & Hset).
    rewrite Ht. cbn [byteSize].
    exists pre, (mid ++ [z]), ((byte_of_code <$> take n s) ++ [x00]), post.
    split; [rewrite Hsplit, <- app_assoc; reflexivity|].
    split; [exact Hpre|].
    split; [rewrite !length_app, length_fmap, length_take; simpl; lia|].
    split; [rewrite length_app; simpl; lia|].
    rewrite Hset, <- app_assoc. reflexivity.
  - unfold getLength in Hfit.
    assert (Hw : Z.of_nat (width (def_type d)) = byteSize (def_type d))
      by (unfold width; lia).
    destruct (SetViewValue_Ok (_buffer this) (def_offset d)
                (width (def_type d)) (ToNumber StringToNumber v)
                (order (def_type d) this) Ho ltac:(nia))
      as (pre & mid & post & Hsplit & Hpre & Hmid & _ & _ & Hset).
    exists pre, mid,
      (NumericToRawBytes (width (def_type d)) (ToNumber StringToNumber v)
         (ToBoolean (order (def_type d) this))), post.
    split; [exact Hsplit|]. split; [exact Hpre|].
    split; [by rewrite length_NumericToRawBytes|]. split; [nia|].
    rewrite setter_integer by done. rewrite Hset. reflexivity.
Qed.

Lemma set_frame (this : instance) (name : jsstring) (d : def) (v : value) :
  obj_get (_defMap this) name = PDef d ->
  in_layout d (getLength this) ->
  ∃ this',
    set StringToNumber this name v = (Ok (), this') ∧
    _defMap this' = _defMap this ∧ LITTE_ENDIAN this' = LITTE_ENDIAN this ∧
    length (_buffer this') = length (_buffer this) ∧
    ∀ i : nat,
      Z.of_nat i < def_offset d ∨
      def_offset d + def_length d * byteSize (def_type d) <= Z.of_nat i ->
      _buffer this' !! i = _buffer this !! i.
Proof.
  intros Hd Hlay.
  destruct (setter_splice this d v Hlay)
    as (pre & old & new & post & Hsplit & Hpre & Hlen & Hfp & Hset).
  eexists. split.
  { unfold set. rewrite (getDefByName_entry _ _ _ Hd). exact Hset. }
  cbn [_defMap LITTE_ENDIAN _buffer with_buffer]. repeat split.
  - rewrite Hsplit, !length_app. lia.
  - intros i Hi. rewrite Hsplit. apply lookup_splice; [auto|lia].
Qed.

Lemma getter_local (this this' : instance) (d : def) :
  LITTE_ENDIAN this' = LITTE_ENDIAN this ->
  length (_buffer this') = length (_buffer this) ->
  in_layout d (getLength this) ->
  (∀ i : nat,
     def_offset d <= Z.of_nat i
     < def_offset d + def_length d * byteSize (def_type d) ->
     _buffer this' !! i = _buffer this !! i) ->
  getter (def_type d) this' (def_offset d) (def_length d)
  = getter (def_type d) this (def_offset d) (def_length d).
Proof.
  intros Hle Hlen (Ho & Hl & Hfit) Hagree.
  pose proof (byteSize_pos (def_type d)) as Hbs.
  assert (Hrange : ∀ n : nat,
    Z.of_nat n <= def_length d * byteSize (def_type d) ->
    take n (drop (Z.to_nat (def_offset d)) (_buffer this'))
    = take n (drop (Z.to_nat (def_offset d)) (_buffer this))).
  { intros n Hn. apply take_drop_agree. intros i Hi. apply Hagree. lia. }
  assert (Hview : ∀ size flag,
    Z.of_nat size <= def_length d * byteSize (def_type d) ->
    GetViewValue (_buffer this') (def_offset d) size flag
    = GetViewValue (_buffer this) (def_offset d) size flag).
  { intros size flag Hs. unfold GetViewValue, in_bounds, byteLength.
    rewrite Hlen, Hrange by exact Hs. reflexivity. }
  destruct (def_type d) eqn:Ht; cbn [getter byteSize] in *.
  - unfold getUint8. rewrite Hview by (simpl; lia). reflexivity.
  - unfold getUint16. rewrite Hle, Hview by (simpl; lia). reflexivity.
  - unfold getUint32. rewrite Hle, Hview by (simpl; lia). reflexivity.
  - unfold getLength, byteLength in Hfit.
    destruct (buffer_split (_buffer this) (def_offset d) (def_length d) Ho
                ltac:(lia) ltac:(unfold byteLength; lia))
      as (pre & mid & post & Hsplit & Hpre & Hmid & _ & Emid & _).
    destruct (buffer_split (_buffer this') (def_offset d) (def_length d) Ho
                ltac:(lia) ltac:(unfold byteLength; lia))
      as (pre' & mid' & post' & Hsplit' & Hpre' & Hmid' & _ & Emid' & _).
    assert (mid' = mid) as ->.
    { rewrite Emid, Emid'. apply Hrange. lia. }
    rewrite Hsplit at 1. rewrite Hsplit' at 1.
    rewrite <- Hpre at 2. rewrite <- Hpre' at 1. rewrite <- Hmid, Nat2Z.id.
    rewrite !cstring_getter_loop_app. reflexivity.
Qed.

Lemma getter_total (this : instance) (d : def) :
  in_layout d (getLength this) ->
  ∃ v, getter (def_type d) this (def_offset d) (def_length d) = Ok v.
Proof.
  intros (Ho & Hl & Hfit). pose proof (byteSize_pos (def_type d)) as Hbs.
  assert (Hview : ∀ (size : nat) flag,
    Z.of_nat size <= def_length d * byteSize (def_type d) ->
    ∃ n, GetViewValue (_buffer this) (def_offset d) size flag = Ok n).
  { intros size flag Hs. unfold GetViewValue, in_bounds.
    unfold getLength in Hfit.
    rewrite (proj2 (Z.leb_le _ _) Ho).
    rewrite (proj2 (Z.leb_le _ _)) by lia. simpl. eauto. }
  destruct (def_type d) eqn:Ht; cbn [getter byteSize] in *.
  - destruct (Hview 1%nat None ltac:(lia)) as [n Hn]. unfold getUint8.
    rewrite Hn. eexists. reflexivity.
  - destruct (Hview 2%nat (LITTE_ENDIAN this) ltac:(lia)) as [n Hn].
    unfold getUint16. rewrite Hn. eexists. reflexivity.
  - destruct (Hview 4%nat (LITTE_ENDIAN this) ltac:(lia)) as [n Hn].
    unfold getUint32. rewrite Hn. eexists. reflexivity.
  - unfold getLength in Hfit.
    destruct (buffer_split (_buffer this) (def_offset d) (def_length d) Ho
                ltac:(lia) ltac:(lia))
      as (pre & mid & post & Hsplit & Hpre & Hmid & _).
    rewrite Hsplit, <- Hpre, <- Hmid, Nat2Z.id, cstring_getter_loop_app.
    eexists. reflexivity.
Qed.

(** X4.  On an instance a program can hold, [set] on one field returns and
    leaves what [get] returns for every field of another name unchanged,
    whatever value is set. *)
Theorem set_leaves_other_fields (this : instance) (name other : jsstring)
    (d d' : def) (v : value) :
  record_instance StringToNumber this ->
  obj_get (_defMap this) name = PDef d ->
  obj_get (_defMap this) other = PDef d' ->
  name ≠ other ->
  ∃ this',
    set StringToNumber this name v = (Ok (), this') ∧
    get this' other = get this other.
Proof.
  intros Hri Hd Hd' Hne.
  pose proof (record_instance_well_sized _ _ Hri) as Hws.
  destruct (record_instance_layout _ Hri) as (defs & t & Hparse & Ht & Hmax).
  assert (Hmax' : t <= MAX_BYTE_LENGTH) by lia.
  pose proof (entries_separate _ _ _ _ _ _ _ Hparse Hmax' Hne Hd Hd') as Hsep.
  destruct (set_frame this name d v Hd (Hws _ _ Hd))
    as (this' & Hset & Hmap & Hle & Hlen & Hframe).
  exists this'. split; [exact Hset|].
  unfold get, _getDefByName. rewrite Hmap, Hd'. cbn [truthy negb mbind outcome_bind].
  apply getter_local; auto.
  - exact (Hws _ _ Hd').
  - intros i Hi. apply Hframe. lia.
Qed.

(** X5.  On an instance a program can hold, [get] and [set] on a declared
    field never throw: [get] returns a value and [set] returns, for a
    Number as for a String. *)
Theorem declared_field_total (this : instance) (name : jsstring) (d : def)
    (v : value) :
  record_instance StringToNumber this ->
  obj_get (_defMap this) name = PDef d ->
  (∃ r, get this name = Ok r) ∧
  (∃ this', set StringToNumber this name v = (Ok (), this')).
Proof.
  intros Hri Hd.
  pose proof (record_instance_well_sized _ _ Hri _ _ Hd) as Hlay. split.
  - unfold get. rewrite (getDefByName_entry _ _ _ Hd). cbn [mbind outcome_bind].
    apply getter_total, Hlay.
  - destruct (set_frame this name d v Hd Hlay) as (this' & Hset & _). eauto.
Qed.

End Frame.

Lemma set_leaves_other_fields_witness :
  ∃ this this',
    Struct packet None None = Ok this ∧
    set (λ _, 0) this (str "method") (VString (str "supercalifragilistic"))
    = (Ok (), this') ∧
    get this' (str "bodyType") = get this (str "bodyType").
Proof.
  eexists.
  assert (Hnew : Struct packet None None = Ok ?[this])
    by (vm_compute; reflexivity).
  destruct (set_leaves_other_fields (λ _, 0) _ (str "method") (str "bodyType")
              {| def_type := cstring; def_offset := 6; def_length := 11 |}
              {| def_type := uint8; def_offset := 17; def_length := 1 |}
              (VString (str "supercalifragilistic")) (ri_new _ _ _ _ Hnew))
    as (this' & Hset & Hget).
  - vm_compute. reflexivity.
  - vm_compute. reflexivity.
  - discriminate.
  - exists this'. split; [exact Hnew|]. split; [exact Hset|exact Hget].
Defined.

Lemma declared_field_total_witness :
  ∃ this,
    Struct packet None None = Ok this ∧
    (∃ r, get this (str "bodyLength") = Ok r) ∧
    (∃ this', set (λ _, 0) this (str "bodyLength") (VString (str "43"))
              = (Ok (), this')).
Proof.
  eexists.
  assert (Hnew : Struct packet None None = Ok ?[this])
    by (vm_compute; reflexivity).
  split; [exact Hnew|].
  apply (declared_field_total (λ _, 0) _ (str "bodyLength")
           {| def_type := uint32; def_offset := 18; def_length := 1 |}
           (VString (str "43")) (ri_new _ _ _ _ Hnew)).
  vm_compute. reflexivity.
Defined.

(** X6.  Whether it returns or throws, [set] leaves the layout, the
    byte-order flag and the byte length of the buffer of any instance as
    they were. *)
Theorem set_keeps_layout (StringToNumber : jsstring -> Z) (this : instance)
    (name : jsstring) (v : value) :
  let this' := snd (set StringToNumber this name v) in
  _defMap this' = _defMap this ∧ LITTE_ENDIAN this' = LITTE_ENDIAN this ∧
  getLength this' = getLength this.
Proof.
  intros this'. apply (set_preserves StringToNumber this this' name v
                         (fst (set StringToNumber this name v))).
  subst this'. destruct (set StringToNumber this name v). reflexivity.
Qed.

(** ** What [get] returns after [set] *)

Lemma until_zero_take_app (l r : list byte) (L : nat) :
  (length l < L)%nat -> until_zero (take L (l ++ x00 :: r)) = until_zero l.
Proof.
  revert L. induction l as [|a l IH]; intros L HL.
  - destruct L as [|L]; [simpl in HL; lia|]. reflexivity.
  - destruct L as [|L]; [simpl in HL; lia|]. simpl in *.
    destruct (Z_of_byte a =? 0); [reflexivity|]. rewrite IH by lia. reflexivity.
Qed.

Lemma code_of_byte_of_code (c : N) :
  (c < 256)%N -> Byte.to_N (byte_of_code c) = c.
Proof.
  intros Hc. apply N2Z.inj. change (Z.of_N (to_N (byte_of_code c)))
    with (Z_of_byte (byte_of_Z (Z.of_N c))).
  rewrite Z_of_byte_of_Z. apply Z.mod_small. lia.
Qed.

Lemma until_zero_codes (l : jsstring) :
  Forall (λ c, (0 < c < 256)%N) l ->
  Byte.to_N <$> until_zero (byte_of_code <$> l) = l.
Proof.
  induction 1 as [|c l Hc _ IH]; [reflexivity|].
  cbn [fmap list_fmap until_zero].
  change (Z_of_byte (byte_of_code c)) with (Z.of_N (to_N (byte_of_code c))).
  rewrite code_of_byte_of_code by lia.
  destruct (Z.eqb_spec (Z.of_N c) 0); [lia|].
  cbn [fmap list_fmap]. rewrite code_of_byte_of_code by lia.
  f_equal. exact IH.
Qed.

Section TextFields.

Variable StringToNumber : jsstring -> Z.

Lemma cstring_set_then_get (this : instance) (name : jsstring) (d : def)
    (v : value) :
  obj_get (_defMap this) name = PDef d ->
  def_type d = cstring ->
  in_layout d (getLength this) ->
  let s := match v with VString s => s | VNumber _ => [] end in
  let n := match v with
           | VString s =>
               Z.to_nat (Z.min (Z.of_nat (length s)) (def_length d - 1))
           | VNumber _ => 0%nat
           end in
  ∃ this',
    set StringToNumber this name v = (Ok (), this') ∧
    get this' name
    = Ok (VString (Byte.to_N <$> until_zero (byte_of_code <$> take n s))).
Proof.
  intros Hd Ht Hlay s n.
  destruct (cstring_setter_splice StringToNumber this d v Ht Hlay)
    as (pre & mid & z & post & Hsplit & Hpre & Hmid & Hns & Hn & Hset).
  fold s n in Hset, Hmid, Hns, Hn. destruct Hlay as (Ho & Hl & Hfit).
  rewrite Ht in Hfit. cbn [byteSize] in Hfit. unfold getLength in Hfit.
  eexists. split.
  { unfold set. rewrite (getDefByName_entry _ _ _ Hd), Ht. exact Hset. }
  rewrite (cstring_get_in_bounds (with_buffer this _) name d Hd Ht Ho);
    [|lia|].
  - cbn [_buffer with_buffer]. rewrite <- Hpre, Nat2Z.id, drop_app_length.
    rewrite until_zero_take_app; [reflexivity|].
    rewrite length_fmap, length_take. lia.
  - unfold getLength, byteLength. cbn [_buffer with_buffer].
    unfold byteLength in Hfit. rewrite Hsplit in Hfit.
    rewrite !length_app in *. cbn [length] in *.
    rewrite length_fmap, length_take. lia.
Qed.

(** X7.  After [set] of a String [s] on a [cstring] field of capacity [c],
    [get] returns the first [min(|s|, c - 1)] code units of [s], each
    modulo 256, up to the first that is 0 modulo 256.  When those code
    units are all between 1 and 255 it returns that prefix, and [s] itself
    when [s] is also shorter than [c]. *)
Theorem cstring_roundtrip (this : instance) (name : jsstring) (d : def)
    (s : jsstring) :
  record_instance StringToNumber this ->
  obj_get (_defMap this) name = PDef d ->
  def_type d = cstring ->
  let n := Z.to_nat (Z.min (Z.of_nat (length s)) (def_length d - 1)) in
  ∃ this',
    set StringToNumber this name (VString s) = (Ok (), this') ∧
    get this' name
    = Ok (VString (Byte.to_N <$> until_zero (byte_of_code <$> take n s))) ∧
    (Forall (λ c, (0 < c < 256)%N) (take n s) ->
     get this' name = Ok (VString (take n s))) ∧
    (Z.of_nat (length s) < def_length d ->
     Forall (λ c, (0 < c < 256)%N) s ->
     get this' name = Ok (VString s)).
Proof.
  intros Hri Hd Ht n.
  pose proof (record_instance_well_sized _ _ Hri _ _ Hd) as Hlay.
  destruct (cstring_set_then_get this name d (VString s) Hd Ht Hlay)
    as (this' & Hset & Hget).
  cbv zeta in Hget. fold n in Hget.
  exists this'. split; [exact Hset|]. split; [exact Hget|]. split.
  - intros Hs. rewrite Hget, until_zero_codes by exact Hs. reflexivity.
  - intros Hlen Hs. rewrite Hget.
    assert (take n s = s) as -> by (apply take_ge; lia).
    rewrite until_zero_codes by exact Hs. reflexivity.
Qed.


(** X9.  [set] of any integer [v] on an integer field of [w] bits stores
    [v] modulo 2^w: [get] then returns that residue, for negative and for
    too large [v] as well. *)
Theorem integer_wraps (this : instance) (name : jsstring) (d : def) (v : Z) :
  record_instance StringToNumber this ->
  obj_get (_defMap this) name = PDef d ->
  def_type d ≠ cstring ->
  ∃ this',
    set StringToNumber this name (VNumber v) = (Ok (), this') ∧
    get this' name = Ok (VNumber (v mod 2 ^ (8 * byteSize (def_type d)))).
Proof.
  intros Hri Hd Ht.
  pose proof (record_instance_well_sized _ _ Hri name d Hd) as Hlay.
  destruct (integer_set_get StringToNumber this name d v Hd Ht Hlay)
    as (pre & mid & post & _ & _ & _ & Hset & Hget).
  eexists. split; [exact Hset|]. rewrite Hget. do 3 f_equal.
  destruct (def_type d); reflexivity.
Qed.

End TextFields.

Lemma cstring_roundtrip_witness :
  ∃ this this',
    Struct packet None None = Ok this ∧
    set (λ _, 0) this (str "method") (VString (str "buy")) = (Ok (), this') ∧
    get this' (str "method") = Ok (VString (str "buy")).
Proof.
  eexists.
  assert (Hnew : Struct packet None None = Ok ?[this])
    by (vm_compute; reflexivity).
  destruct (cstring_roundtrip (λ _, 0) _ (str "method")
              {| def_type := cstring; def_offset := 6; def_length := 11 |}
              (str "buy") (ri_new _ _ _ _ Hnew))
    as (this' & Hset & _ & _ & Hget).
  - vm_compute. reflexivity.
  - reflexivity.
  - exists this'. split; [exact Hnew|]. split; [exact Hset|].
    apply Hget; [vm_compute; reflexivity|].
    repeat constructor; vm_compute; reflexivity.
Defined.


Lemma integer_wraps_witness :
  ∃ this this',
    Struct packet None None = Ok this ∧
    set (λ _, 0) this (str "bodyType") (VNumber (-1)) = (Ok (), this') ∧
    get this' (str "bodyType") = Ok (VNumber 255).
Proof.
  eexists.
  assert (Hnew : Struct packet None None = Ok ?[this])
    by (vm_compute; reflexivity).
  destruct (integer_wraps (λ _, 0) _ (str "bodyType")
              {| def_type := uint8; def_offset := 17; def_length := 1 |}
              (-1) (ri_new _ _ _ _ Hnew))
    as (this' & Hset & Hget).
  - vm_compute. reflexivity.
  - discriminate.
  - exists this'. split; [exact Hnew|]. split; [exact Hset|exact Hget].
Defined.

(** X10.  Right after a constructor call without buffer, [get] returns 0 for
    every integer field and the empty String for every [cstring] field. *)
Theorem fresh_instance_reads_zero (defs : list jsstring)
    (isLittleEndian : option bool) (this : instance) (name : jsstring)
    (d : def) :
  Struct defs None isLittleEndian = Ok this ->
  obj_get (_defMap this) name = PDef d ->
  get this name
  = Ok (match def_type d with
        | cstring => VString []
        | _ => VNumber 0
        end).
Proof.
  intros Hnew Hd.
  pose proof (record_instance_well_sized (λ _, 0) _
                (ri_new _ _ _ _ Hnew) _ _ Hd) as (Ho & Hl & Hfit).
  apply Struct_Ok in Hnew.
  destruct Hnew as (t & m & _ & _ & _ & Hlen & Hbuf).
  pose proof (byteSize_pos (def_type d)) as Hbs.
  assert (Hview : ∀ (size : nat) flag,
    (size = 1 ∨ size = 2 ∨ size = 4)%nat ->
    Z.of_nat size <= def_length d * byteSize (def_type d) ->
    GetViewValue (_buffer this) (def_offset d) size flag = Ok 0).
  { intros size flag Hsize Hs. unfold GetViewValue, in_bounds.
    unfold getLength in Hfit, Hlen.
    rewrite (proj2 (Z.leb_le _ _) Ho).
    rewrite (proj2 (Z.leb_le _ _)) by lia. cbn [andb].
    rewrite Hbuf, drop_replicate, take_replicate.
    replace (size `min` (Z.to_nat t - Z.to_nat (def_offset d)))%nat
      with size by lia.
    destruct Hsize as [->|[->| ->]]; destruct (ToBoolean flag); reflexivity. }
  unfold get. rewrite (getDefByName_entry _ _ _ Hd). cbn [mbind outcome_bind].
  destruct (def_type d) eqn:Ht; cbn [getter byteSize] in *.
  - unfold getUint8. rewrite Hview by lia. reflexivity.
  - unfold getUint16. rewrite Hview by lia. reflexivity.
  - unfold getUint32. rewrite Hview by lia. reflexivity.
  - change (getter cstring this (def_offset d) (def_length d))
      with (VString <$> cstring_getter_loop (Z.to_nat (def_length d))
                          (_buffer this) (def_offset d) []).
    unfold getLength in Hfit, Hlen.
    destruct (buffer_split (_buffer this) (def_offset d) (def_length d) Ho
                ltac:(lia) ltac:(lia))
      as (pre & mid & post & Hsplit & Hpre & Hmid & _ & Emid & _).
    rewrite Hsplit at 1. rewrite <- Hpre, <- Hmid, Nat2Z.id.
    rewrite cstring_getter_loop_app.
    rewrite Emid, Hbuf, drop_replicate, take_replicate.
    destruct (Z.to_nat (def_length d)
                `min` (Z.to_nat t - Z.to_nat (def_offset d)))%nat eqn:E;
      [lia|reflexivity].
Qed.

Lemma fresh_instance_reads_zero_witness :
  ∃ this,
    Struct packet None None = Ok this ∧
    get this (str "statusCode") = Ok (VNumber 0) ∧
    get this (str "method") = Ok (VString []).
Proof.
  eexists.
  assert (Hnew : Struct packet None None = Ok ?[this])
    by (vm_compute; reflexivity).
  split; [exact Hnew|]. split.
  - apply (fresh_instance_reads_zero _ _ _ (str "statusCode")
             {| def_type := uint32; def_offset := 2; def_length := 1 |} Hnew).
    vm_compute. reflexivity.
  - apply (fresh_instance_reads_zero _ _ _ (str "method")
             {| def_type := cstring; def_offset := 6; def_length := 11 |} Hnew).
    vm_compute. reflexivity.
Defined.

(** ** Buffers shorter than the layout *)

(** X11.  The constructor wraps a supplied buffer of any length without
    checking it against the layout.  [get] and [set] on an integer field
    that ends past the end of that buffer throw a RangeError, and the
    failing [set] writes nothing. *)
Theorem undersized_buffer (defs : list jsstring) (buffer : ArrayBuffer)
    (isLittleEndian : option bool) (totalBytes : Z) (defMap : object) :
  _parseDefs empty_object defs = Ok (totalBytes, defMap) ->
  let this := {| _defMap := defMap; _buffer := buffer;
                 LITTE_ENDIAN := isLittleEndian |} in
  Struct defs (Some buffer) isLittleEndian = Ok this ∧
  ∀ StringToNumber name d v,
    obj_get defMap name = PDef d ->
    def_type d ≠ cstring ->
    byteLength buffer < def_offset d + byteSize (def_type d) ->
    get this name = Throw RangeError ∧
    set StringToNumber this name v = (Throw RangeError, this).
Proof.
  intros Hparse this. split; [unfold Struct; rewrite Hparse; reflexivity|].
  intros f name d v Hd Ht Hout.
  assert (Hb : ∀ size : nat, Z.of_nat size = byteSize (def_type d) ->
            in_bounds buffer (def_offset d) (Z.of_nat size) = false).
  { intros size Hs. unfold in_bounds. apply andb_false_iff. right.
    apply Z.leb_gt. lia. }
  unfold get, set. rewrite (getDefByName_entry this name d Hd).
  cbn [mbind outcome_bind].
  destruct (def_type d); try done;
    cbn [getter setter _buffer byteSize] in *;
    unfold getUint8, getUint16, getUint32, setUint8, setUint16, setUint32,
      GetViewValue, SetViewValue; subst this; cbn [_buffer LITTE_ENDIAN];
    rewrite Hb by reflexivity; split; reflexivity.
Qed.

Lemma undersized_buffer_witness :
  ∃ this,
    Struct packet (Some [x01; x02; x03]) None = Ok this ∧
    get this (str "packetId") = Ok (VNumber 258) ∧
    get this (str "statusCode") = Throw RangeError ∧
    set (λ _, 0) this (str "statusCode") (VNumber 7) = (Throw RangeError, this).
Proof.
  assert (Hparse : _parseDefs empty_object packet = Ok (22, ?[defMap]))
    by (vm_compute; reflexivity).
  destruct (undersized_buffer packet [x01; x02; x03] None _ _ Hparse)
    as [Hnew Hout].
  eexists. split; [exact Hnew|]. split; [vm_compute; reflexivity|].
  apply (Hout (λ _, 0) (str "statusCode")
           {| def_type := uint32; def_offset := 2; def_length := 1 |}).
  - vm_compute. reflexivity.
  - discriminate.
  - vm_compute. reflexivity.
Defined.

(** The setter loop on a buffer that ends before the content does. *)
Lemma cstring_setter_loop_short (s : jsstring) (n i : nat)
    (pre mid : list byte) :
  (length mid < n)%nat -> (i + n <= length s)%nat ->
  cstring_setter_loop n s (Z.of_nat i) (Z.of_nat (length pre)) (pre ++ mid)
  = (Throw RangeError,
     pre ++ (byte_of_code <$> take (length mid) (drop i s))).
Proof.
  revert n i pre. induction mid as [|m mid IH]; intros n i pre Hn Hlen;
    (destruct n as [|n]; [simpl in Hn; lia|]); cbn [cstring_setter_loop].
  - unfold setUint8, SetViewValue, in_bounds, byteLength.
    rewrite !app_nil_r.
    replace (Z.of_nat (length pre) + Z.of_nat 1 <=? Z.of_nat (length pre))
      with false by (symmetry; apply Z.leb_gt; lia).
    rewrite andb_false_r. reflexivity.
  - destruct (lookup_lt_is_Some_2 s i ltac:(lia)) as [c Hc].
    rewrite (charCodeAt_lookup _ _ _ Hc), setUint8_app.
    replace (pre ++ byte_of_Z (Z.of_N c) :: mid)
      with ((pre ++ [byte_of_code c]) ++ mid)
      by (rewrite <- app_assoc; reflexivity).
    replace (Z.of_nat (length pre) + 1)
      with (Z.of_nat (length (pre ++ [byte_of_code c])))
      by (rewrite length_app; simpl; lia).
    replace (Z.of_nat i + 1) with (Z.of_nat (S i)) by lia.
    cbn [length] in Hn. rewrite IH by lia.
    rewrite (drop_S _ _ _ Hc). cbn [length take fmap list_fmap].
    rewrite <- app_assoc. reflexivity.
Qed.

(** X12.  [set] on a [cstring] field is not atomic: when the buffer ends at
    or after the offset of the field but before the byte of the terminator,
    the code units that fit are written up to the end of the buffer and the
    call then throws a RangeError, leaving them there without terminator. *)
Theorem cstring_set_partial_write (StringToNumber : jsstring -> Z)
    (this : instance) (name : jsstring) (d : def) (s : jsstring) :
  obj_get (_defMap this) name = PDef d ->
  def_type d = cstring ->
  let n := Z.to_nat (Z.min (Z.of_nat (length s)) (def_length d - 1)) in
  let room := Z.to_nat (getLength this - def_offset d) in
  0 <= def_offset d <= getLength this ->
  (room <= n)%nat ->
  set StringToNumber this name (VString s)
  = (Throw RangeError,
     with_buffer this
       (take (Z.to_nat (def_offset d)) (_buffer this)
        ++ (byte_of_code <$> take room s))).
Proof.
  intros Hd Ht n room Ho Hroom. unfold getLength, byteLength in *.
  assert (Hsplit : _buffer this
                   = take (Z.to_nat (def_offset d)) (_buffer this)
                     ++ drop (Z.to_nat (def_offset d)) (_buffer this))
    by (symmetry; apply take_drop).
  set (pre := take (Z.to_nat (def_offset d)) (_buffer this)) in *.
  set (mid := drop (Z.to_nat (def_offset d)) (_buffer this)) in *.
  assert (Hpre : Z.of_nat (length pre) = def_offset d).
  { subst pre. rewrite length_take. lia. }
  assert (Hmid : length mid = room).
  { subst mid room. rewrite length_drop. lia. }
  unfold set. rewrite (getDefByName_entry _ _ _ Hd), Ht. cbn [setter].
  fold n. rewrite Hsplit, <- Hpre.
  change (cstring_setter_loop n s 0)
    with (cstring_setter_loop n s (Z.of_nat 0)).
  destruct (decide (room < n)%nat) as [Hlt|Hge].
  - rewrite cstring_setter_loop_short by lia. rewrite drop_0, Hmid.
    reflexivity.
  - assert (n = length mid) as Hn by lia. rewrite Hn.
    rewrite <- (app_nil_r mid) at 2.
    rewrite (cstring_setter_loop_app s 0 pre mid []) by lia.
    rewrite drop_0, app_nil_r. unfold setUint8, SetViewValue, in_bounds.
    unfold byteLength. cbn [_buffer with_buffer].
    replace (Z.of_nat (length pre) + Z.of_nat (length mid) + Z.of_nat 1
             <=? Z.of_nat (length (pre ++ (byte_of_code <$> take (length mid) s))))
      with false.
    2:{ symmetry. apply Z.leb_gt.
        rewrite length_app, length_fmap, length_take. lia. }
    rewrite andb_false_r. unfold store. rewrite Hmid. reflexivity.
Qed.

Lemma cstring_set_partial_write_witness :
  ∃ this,
    Struct [str "uint8 kind"; str "cstring tag[8]"] (Some [x00; x00; x00])
      None = Ok this ∧
    set (λ _, 0) this (str "tag") (VString (str "hello"))
    = (Throw RangeError,
       with_buffer this ([x00] ++ (byte_of_code <$> str "he"))).
Proof.
  eexists.
  assert (Hnew : Struct [str "uint8 kind"; str "cstring tag[8]"]
                   (Some [x00; x00; x00]) None = Ok ?[this])
    by (vm_compute; reflexivity).
  split; [exact Hnew|].
  rewrite (cstring_set_partial_write (λ _, 0) _ (str "tag")
             {| def_type := cstring; def_offset := 1; def_length := 8 |}
             (str "hello")).
  - vm_compute. reflexivity.
  - vm_compute. reflexivity.
  - reflexivity.
  - vm_compute. split; discriminate.
  - vm_compute. lia.
Defined.

(** ** Iteration and rendering *)

Lemma fold_bytes_visits (bs : list byte) (i : Z) (acc : list (Z * Z)) :
  fold_bytes (λ v i acc, Ok (acc ++ [(i, v)])) i bs acc
  = Ok (acc ++ imap (λ j b, (i + Z.of_nat j, Z_of_byte b)) bs).
Proof.
  revert i acc. induction bs as [|b bs IH]; intros i acc.
  - simpl. rewrite app_nil_r. reflexivity.
  - cbn [fold_bytes mbind outcome_bind imap]. rewrite IH, <- app_assoc.
    cbn [app]. rewrite Z.add_0_r. do 3 f_equal.
    apply imap_ext. intros j x _. simpl. f_equal. lia.
Qed.

Lemma fold_bytes_app {A} (callback : Z -> Z -> A -> outcome A) (i : Z)
    (l1 l2 : list byte) (acc : A) :
  fold_bytes callback i (l1 ++ l2) acc
  = acc' ← fold_bytes callback i l1 acc;
    fold_bytes callback (i + Z.of_nat (length l1)) l2 acc'.
Proof.
  revert i acc. induction l1 as [|b l1 IH]; intros i acc.
  - simpl. rewrite Z.add_0_r. reflexivity.
  - cbn [app fold_bytes length].
    destruct (callback (Z_of_byte b) i acc) as [acc1| |];
      cbn [mbind outcome_bind]; try reflexivity.
    rewrite IH. do 2 f_equal. lia.
Qed.

(** X13.  [eachByte] calls the callback once per byte of the buffer, in
    ascending order, with the value of the byte and its index; on an empty
    buffer it does not call it, and an exception of the callback ends the
    iteration with that exception. *)
Theorem eachByte_visits (this : instance) :
  (∀ (A : Type) (callback : Z -> Z -> A -> outcome A) acc,
     eachByte this callback acc = fold_bytes callback 0 (_buffer this) acc) ∧
  eachByte this (λ v i acc, Ok (acc ++ [(i, v)])) []
  = Ok (imap (λ j b, (Z.of_nat j, Z_of_byte b)) (_buffer this)) ∧
  (∀ (A : Type) (callback : Z -> Z -> A -> outcome A) acc,
     _buffer this = [] -> eachByte this callback acc = Ok acc) ∧
  (∀ (A : Type) (callback : Z -> Z -> A -> outcome A) acc before b after e,
     _buffer this = before ++ b :: after ->
     fold_bytes callback 0 before acc = Throw e ∨
     (∃ acc', fold_bytes callback 0 before acc = Ok acc' ∧
        callback (Z_of_byte b) (Z.of_nat (length before)) acc' = Throw e) ->
     eachByte this callback acc = Throw e).
Proof.
  split; [intros; apply eachByte_fold|]. split; [|split].
  - rewrite eachByte_fold, fold_bytes_visits. reflexivity.
  - intros A cb acc Hb. rewrite eachByte_fold, Hb. reflexivity.
  - intros A cb acc before b after e Hb H. rewrite eachByte_fold, Hb.
    rewrite fold_bytes_app. cbn [length].
    destruct H as [-> | (acc' & -> & Hcb)]; [reflexivity|].
    cbn [mbind outcome_bind fold_bytes]. rewrite Z.add_0_l, Hcb. reflexivity.
Qed.

Lemma padZero_loop_replicate (n : nat) (s : jsstring) :
  _padZero_loop n s = replicate n 48%N ++ s.
Proof.
  revert s. induction n as [|n IH]; intros s; [reflexivity|].
  cbn [_padZero_loop]. rewrite IH.
  change (48%N :: s) with ([48%N] ++ s). rewrite app_assoc.
  f_equal. clear. induction n as [|n IH]; [reflexivity|].
  simpl. rewrite IH. reflexivity.
Qed.

(** X14.  [_padZero(str, count)] with [count] at least the length of [str]
    returns [str] preceded by [count - |str|] characters [0]: a String of
    exactly [count] characters, and [str] itself when the lengths are
    equal. *)
Theorem padZero_pads (s : jsstring) (count : Z) :
  Z.of_nat (length s) <= count ->
  _padZero s count = Ok (replicate (Z.to_nat count - length s) 48%N ++ s) ∧
  ∀ r, _padZero s count = Ok r -> Z.of_nat (length r) = count.
Proof.
  intros Hc. unfold _padZero.
  replace (count - Z.of_nat (length s) <? 0) with false
    by (symmetry; apply Z.ltb_ge; lia).
  rewrite padZero_loop_replicate.
  replace (Z.to_nat (count - Z.of_nat (length s)))
    with (Z.to_nat count - length s)%nat by lia.
  split; [reflexivity|]. intros r [= <-].
  rewrite length_app, length_replicate. lia.
Qed.

Lemma padZero_pads_witness :
  _padZero (str "1f") 2 = Ok (str "1f") ∧
  _padZero (str "101") 8 = Ok (str "00000101").
Proof.
  split.
  - exact (proj1 (padZero_pads (str "1f") 2 ltac:(vm_compute; discriminate))).
  - exact (proj1 (padZero_pads (str "101") 8 ltac:(vm_compute; discriminate))).
Defined.

Lemma concat_chunks_inj {A} (f : byte -> list A) (k : nat) (l1 l2 : list byte) :
  (∀ b, length (f b) = S k) ->
  (∀ b1 b2, f b1 = f b2 -> b1 = b2) ->
  concat (f <$> l1) = concat (f <$> l2) -> l1 = l2.
Proof.
  intros Hlen Hinj. revert l2. induction l1 as [|a l1 IH]; intros l2 H.
  - destruct l2 as [|b l2]; [reflexivity|]. simpl in H.
    apply (f_equal length) in H. rewrite length_app, Hlen in H. simpl in H. lia.
  - destruct l2 as [|b l2]; simpl in H.
    + apply (f_equal length) in H. rewrite length_app, Hlen in H.
      simpl in H. lia.
    + apply app_inj_1 in H; [|by rewrite !Hlen].
      destruct H as [Hab Hrest]. f_equal; [by apply Hinj|by apply IH].
Qed.

Lemma length_concat_chunks {A} (f : byte -> list A) (k : nat) (l : list byte) :
  (∀ b, length (f b) = k) -> length (concat (f <$> l)) = (k * length l)%nat.
Proof.
  intros Hlen. induction l as [|b l IH]; [simpl; lia|].
  change (concat (f <$> b :: l)) with (f b ++ concat (f <$> l)).
  rewrite length_app, Hlen, IH. simpl. lia.
Qed.

Lemma numeral_hex_inj (b1 b2 : byte) :
  numeral 16 2 b1 = numeral 16 2 b2 -> b1 = b2.
Proof.
  set (g := λ ds : jsstring,
         byte_of_Z (fold_left (λ acc c, 16 * acc
           + (if (c <? 58)%N then Z.of_N c - 48 else Z.of_N c - 87)) ds 0)).
  assert (Hg : ∀ b, g (numeral 16 2 b) = b)
    by (intros b; destruct b; vm_compute; reflexivity).
  intros H. rewrite <- (Hg b1), <- (Hg b2), H. reflexivity.
Qed.

Lemma numeral_binary_inj (b1 b2 : byte) :
  numeral 2 8 b1 = numeral 2 8 b2 -> b1 = b2.
Proof.
  set (g := λ ds : jsstring,
         byte_of_Z (fold_left (λ acc c, 2 * acc + (Z.of_N c - 48)) ds 0)).
  assert (Hg : ∀ b, g (numeral 2 8 b) = b)
    by (intros b; destruct b; vm_compute; reflexivity).
  intros H. rewrite <- (Hg b1), <- (Hg b2), H. reflexivity.
Qed.

(** X15.  The [hex] rendering has two characters and the [binary]
    rendering eight characters per byte of the buffer, and each determines
    the bytes: two instances that render alike hold the same bytes. *)
Theorem dump_determines_buffer (this this' : instance) :
  (∃ hex bin,
     toString this (Some (str "hex")) = Ok (RString hex) ∧
     toString this (Some (str "binary")) = Ok (RString bin) ∧
     Z.of_nat (length hex) = 2 * getLength this ∧
     Z.of_nat (length bin) = 8 * getLength this) ∧
  (toString this (Some (str "hex")) = toString this' (Some (str "hex")) ->
   _buffer this = _buffer this') ∧
  (toString this (Some (str "binary")) = toString this' (Some (str "binary")) ->
   _buffer this = _buffer this').
Proof.
  assert (Hhex : ∀ t, toString t (Some (str "hex"))
                 = Ok (RString (concat (numeral 16 2 <$> _buffer t)))).
  { intros t. unfold toString.
    change (bool_decide (str "hex" = str "hex")) with true.
    cbv iota. rewrite toString_hex_spec. reflexivity. }
  assert (Hbin : ∀ t, toString t (Some (str "binary"))
                 = Ok (RString (concat (numeral 2 8 <$> _buffer t)))).
  { intros t. unfold toString.
    change (bool_decide (str "binary" = str "hex")) with false.
    change (bool_decide (str "binary" = str "binary")) with true.
    cbv iota. rewrite toString_binary_spec. reflexivity. }
  split; [|split].
  - eexists _, _. split; [apply Hhex|]. split; [apply Hbin|].
    unfold getLength, byteLength.
    rewrite (length_concat_chunks _ 2), (length_concat_chunks _ 8)
      by (intros b; reflexivity). lia.
  - rewrite !Hhex. intros [= H].
    apply (concat_chunks_inj (numeral 16 2) 1); auto using numeral_hex_inj.
  - rewrite !Hbin. intros [= H].
    apply (concat_chunks_inj (numeral 2 8) 7); auto using numeral_binary_inj.
Qed.

(** ** Names that are no field *)

(** X16.  In a layout without a field called [__proto__], [get] and [set]
    on a name that is no field throw the Error [name + 'does not defined']
    when [Object.prototype] has no property of that name, and a TypeError
    when it has one; [set] leaves the instance as it was. *)
Theorem undeclared_name_outcome (StringToNumber : jsstring -> Z)
    (this : instance) (name : jsstring) (v : value) :
  (∀ d, obj_get (_defMap this) name ≠ PDef d) ->
  (∀ d, obj_get (_defMap this) (str "__proto__") ≠ PDef d) ->
  let e := if bool_decide (name ∈ ObjectPrototype_keys) then TypeError
           else Error (name ++ str "does not defined") in
  get this name = Throw e ∧
  set StringToNumber this name v = (Throw e, this).
Proof.
  intros Hname Hproto e.
  assert (Hp : proto (_defMap this) = None).
  { destruct (proto (_defMap this)) as [d|] eqn:E; [|reflexivity].
    exfalso. apply (Hproto d). apply obj_get_PDef. exact E. }
  assert (Hget : obj_get (_defMap this) name = ObjectPrototype_get name).
  { unfold obj_get. rewrite Hp. case_bool_decide as Hk.
    - subst name. reflexivity.
    - destruct (own (_defMap this) !! name) as [d|] eqn:E; [|reflexivity].
      exfalso. apply (Hname d). apply obj_get_PDef.
      rewrite bool_decide_eq_false_2 by done. exact E. }
  unfold get, set, _getDefByName. rewrite Hget. subst e.
  unfold ObjectPrototype_get. case_bool_decide; split; reflexivity.
Qed.

Lemma undeclared_name_outcome_witness :
  ∃ this,
    Struct packet None None = Ok this ∧
    get this (str "valueOf") = Throw TypeError ∧
    get this (str "checksum")
    = Throw (Error (str "checksumdoes not defined")).
Proof.
  eexists.
  assert (Hnew : Struct packet None None = Ok ?[this])
    by (vm_compute; reflexivity).
  split; [exact Hnew|]. split.
  - apply (undeclared_name_outcome (λ _, 0) _ (str "valueOf") (VNumber 0));
      intros d; vm_compute; discriminate.
  - apply (undeclared_name_outcome (λ _, 0) _ (str "checksum") (VNumber 0));
      intros d; vm_compute; discriminate.
Defined.
